(** * Improving embeddings with signal processing

    A shallow embedding of the notebook
    [examples/Improving_embeddings_with_signal_processing.ipynb]:
    the sliding-window segmenter [split_text], the short-time transform
    [get_fft], the filter [lowpass_filter], the inverse transform
    [fft_to_embedding] and the final average over the chunk axis.

    Numbers.  A Python float is a binary64 number: a finite float is the
    rational it denotes, and a subtraction, a product or the conversion
    of an [int] is the exact result rounded to the nearest binary64
    number, ties to even, with overflow to an infinity (to
    [OverflowError] for the conversion of an [int]).  The two zeros are
    not told apart.  The index computations of the notebook,
    [int(segment_length * (1 - overlap_percent))] and
    [int(cutoff * fft.shape[1])], are carried out in this arithmetic.
    The transforms are computed exactly, in the field of the 32nd roots of
    unity over the rationals, instead of in complex128, and so is the
    mean over the chunks.

    Libraries.  [librosa.stft], [librosa.istft] and numpy's [rfft],
    [irfft], [mean] and slice assignment are not code of the notebook;
    they are modelled after their documentation, with the defaults of
    librosa 0.10 (zero padding at the centre-padded ends). *)

From Stdlib Require Import ZArith QArith Qcanon Qround List String Ascii Bool Lia.
From Stdlib Require Import Lqa Setoid.
Import ListNotations.

Local Open Scope Z_scope.

(** ** Python values, exceptions and the few built-ins the notebook uses *)

Module Py.

(** The exceptions the code can raise, with their messages. *)
Inductive exn : Type :=
| TypeError (msg : string)
| ValueError (msg : string)
| OverflowError (msg : string).

(** A computation either returns or raises. *)
Inductive result (A : Type) : Type :=
| Ok (a : A)
| Raise (e : exn).

Arguments Ok {A} a.
Arguments Raise {A} e.

Definition bind {A B : Type} (m : result A) (f : A -> result B) : result B :=
  match m with
  | Ok a => f a
  | Raise e => Raise e
  end.

Notation "x <- m ;; k" := (bind m (fun x => k))
  (at level 61, m at next level, right associativity).

(** A Python float: a finite value (the rational it denotes), an infinity
    or NaN. *)
Inductive pyfloat : Type :=
| Finite (q : Q)
| PosInf
| NegInf
| NaN.

(** *** Rounding to binary64

    A finite binary64 number is an integer multiple [m * 2^(j - 1074)] of
    a power of two with [m < 2^53]; [j = 0] for the subnormal numbers and
    the first binade of the normal ones, and [j] grows by one from one
    binade to the next. *)

Definition two (k : Z) : Q := inject_Z (2 ^ k).

(** The integer nearest to [x], the even one of the two when [x] lies
    half way. *)
Definition rne (x : Q) : Z :=
  let f := Qfloor x in
  match Qcompare (x - inject_Z f) (1#2) with
  | Lt => f
  | Gt => f + 1
  | Eq => if Z.even f then f else f + 1
  end.

(** The binade of [a >= 0]: the last place of a number of binade [j] is
    [2^(j - 1074)]. *)
Definition binade (a : Q) : Z := Z.log2 (Qfloor (a * two 1022)).

(** [a >= 0] rounded to 53 significant bits, the exponent unbounded above. *)
Definition round_abs (a : Q) : Q :=
  inject_Z (rne (a * two 1074 / two (binade a)) * 2 ^ binade a) / two 1074.

Definition round_finite (q : Q) : Q :=
  Qred (match Qcompare q 0 with
        | Eq => 0
        | Gt => round_abs q
        | Lt => - round_abs (- q)
        end).

(** The largest finite binary64 number, and the middle between it and
    [2^1024]: from there on a result rounds to an infinity. *)
Definition max_float : Q := inject_Z (2 ^ 1024 - 2 ^ 971).

Definition overflow_threshold : Q := inject_Z (2 ^ 1024 - 2 ^ 970).

(** The float an exact result [q] is rounded to. *)
Definition round64 (q : Q) : pyfloat :=
  if Qle_bool overflow_threshold q then PosInf
  else if Qle_bool q (- overflow_threshold) then NegInf
  else Finite (round_finite q).

(** [float(z)] as the arithmetic operators convert an [int] operand. *)
Definition float_of_int (z : Z) : result pyfloat :=
  match round64 (inject_Z z) with
  | Finite q => Ok (Finite q)
  | _ => Raise (OverflowError "int too large to convert to float")
  end.

(** The float of a dimension of an array: a dimension is a machine
    integer, far below the overflow threshold. *)
Definition float_of_size (n : nat) : pyfloat :=
  Finite (round_finite (inject_Z (Z.of_nat n))).

(** The Python objects that can reach the parameters of [split_text].
    [bool] is a subclass of [int]; [PyNone] stands for any object of
    another type. *)
Inductive pyval : Type :=
| PyStr (s : string)
| PyInt (z : Z)
| PyBool (b : bool)
| PyFloat (f : pyfloat)
| PyNone.

(** [isinstance(v, str)], [isinstance(v, int)], [isinstance(v, float)]. *)
Definition isinstance_str (v : pyval) : bool :=
  match v with PyStr _ => true | _ => false end.

Definition isinstance_int (v : pyval) : bool :=
  match v with PyInt _ | PyBool _ => true | _ => false end.

Definition isinstance_float (v : pyval) : bool :=
  match v with PyFloat _ => true | _ => false end.

(** The integer an [int] instance denotes ([True] is 1, [False] is 0). *)
Definition int_value (v : pyval) : Z :=
  match v with
  | PyInt z => z
  | PyBool true => 1
  | _ => 0
  end.

Definition float_value (v : pyval) : pyfloat :=
  match v with
  | PyFloat f => f
  | _ => Finite (inject_Z (int_value v))
  end.

(** [a < b] on floats: false as soon as one side is NaN. *)
Definition float_lt (a b : pyfloat) : bool :=
  match a, b with
  | NaN, _ | _, NaN => false
  | Finite x, Finite y => negb (Qle_bool y x)
  | NegInf, NegInf => false
  | NegInf, _ => true
  | _, PosInf => match a with PosInf => false | _ => true end
  | _, _ => false
  end.

(** [a - b] on floats. *)
Definition float_sub (a b : pyfloat) : pyfloat :=
  match a, b with
  | NaN, _ | _, NaN => NaN
  | Finite x, Finite y => round64 (x - y)
  | PosInf, PosInf | NegInf, NegInf => NaN
  | PosInf, _ | _, NegInf => PosInf
  | NegInf, _ | _, PosInf => NegInf
  end.

Definition Qsign (q : Q) : Z := Z.sgn (Qnum q).

(** [a * b] on floats. *)
Definition float_mul (a b : pyfloat) : pyfloat :=
  let inf (s : Z) := if s =? 0 then NaN else if 0 <? s then PosInf else NegInf in
  match a, b with
  | NaN, _ | _, NaN => NaN
  | Finite x, Finite y => round64 (x * y)
  | Finite x, PosInf | PosInf, Finite x => inf (Qsign x)
  | Finite x, NegInf | NegInf, Finite x => inf (- Qsign x)
  | PosInf, PosInf | NegInf, NegInf => PosInf
  | PosInf, NegInf | NegInf, PosInf => NegInf
  end.

(** [int(x)] for a float [x]: truncation towards zero. *)
Definition int_of_float (x : pyfloat) : result Z :=
  match x with
  | Finite q => Ok (if Qle_bool 0 q then Qfloor q else Qceiling q)
  | NaN => Raise (ValueError "cannot convert float NaN to integer")
  | PosInf | NegInf => Raise (OverflowError "cannot convert float infinity to integer")
  end.

(** [range(start, stop, step)] as the list of its values. *)
Definition range (start stop step : Z) : result (list Z) :=
  if step =? 0 then Raise (ValueError "range() arg 3 must not be zero")
  else
    let n := if 0 <? step
             then (stop - start + step - 1) / step
             else (start - stop - step - 1) / (- step) in
    Ok (map (fun k => start + Z.of_nat k * step) (seq 0 (Z.to_nat n))).

(** A slice bound as Python normalises it against a length. *)
Definition slice_index (len : nat) (i : Z) : nat :=
  if i <? 0 then Z.to_nat (Z.max 0 (i + Z.of_nat len))
  else Nat.min (Z.to_nat i) len.

(** [l[i:j]]. *)
Definition slice {A : Type} (l : list A) (i j : Z) : list A :=
  let lo := slice_index (List.length l) i in
  let hi := slice_index (List.length l) j in
  firstn (hi - lo) (skipn lo l).

(** [c.isspace()] for a character below U+0100: the code points Python's
    [str.split()] treats as separators. *)
Definition isspace (c : ascii) : bool :=
  let n := nat_of_ascii c in
  (((9 <=? n) && (n <=? 13)) || ((28 <=? n) && (n <=? 32))
   || (n =? 133) || (n =? 160))%nat.

(** [text.split()]: the maximal runs of non-space characters, in order.
    [cur] is the word being read. *)
Fixpoint split_from (cur : string) (s : string) : list string :=
  let flush (rest : list string) :=
    match cur with EmptyString => rest | _ => cur :: rest end in
  match s with
  | EmptyString => flush []
  | String c s' =>
      if isspace c then flush (split_from EmptyString s')
      else split_from (cur ++ String c EmptyString)%string s'
  end.

Definition split (text : string) : list string := split_from EmptyString text.

(** [sep.join(words)]. *)
Definition join (sep : string) (words : list string) : string :=
  String.concat sep words.

End Py.

Import Py.

(** ** The segmenter *)

(** [int(segment_length * (1 - overlap_percent))]: the [int] 1 becomes
    the float 1.0, the difference is a float, and the product converts
    [segment_length] to a float. *)
Definition skip_of (segment_length : Z) (overlap_percent : pyfloat) : result Z :=
  n <- float_of_int segment_length ;;
  int_of_float (float_mul n (float_sub (Finite 1) overlap_percent)).

(** [split_text(text, segment_length, overlap_percent)], cell 3 of the
    notebook. *)
Definition split_text (text segment_length overlap_percent : pyval)
  : result (list string) :=
  if negb (isinstance_str text) then
    Raise (TypeError "text must be a string")
  else if negb (isinstance_int segment_length)
          || (int_value segment_length <=? 0) then
    Raise (ValueError "segment_length must be a positive integer")
  else if negb (isinstance_float overlap_percent)
          || float_lt (float_value overlap_percent) (Finite 0)
          || float_lt (Finite 1) (float_value overlap_percent) then
    Raise (ValueError "overlap_percent must be a float between 0 and 1")
  else
    let words := split (match text with PyStr s => s | _ => EmptyString end) in
    skip <- skip_of (int_value segment_length) (float_value overlap_percent) ;;
    idx <- range 0 (Z.of_nat (List.length words)) skip ;;
    Ok (map (fun i => join " " (slice words i (i + int_value segment_length))) idx).

(** ** Exact complex arithmetic for a 32-point transform

    Every coefficient of a 32-point discrete Fourier transform of rational
    samples lies in the field generated over the rationals by
    z = exp(2 pi i / 32).  That field is a tower of four quadratic
    extensions of Q: level [S n] adjoins a square root of the generator of
    level [n], starting from the generator -1 of level 0.  An element of
    level [S n] is a pair [(a, b)] standing for [a + b * g], [g] the
    generator of level [S n]. *)

Module Cyc.

Fixpoint C (n : nat) : Type :=
  match n with
  | O => Qc
  | S m => (C m * C m)%type
  end.

Fixpoint zero (n : nat) : C n :=
  match n with
  | O => Q2Qc 0
  | S m => (zero m, zero m)
  end.

(** The rational [q] as an element of level [n]. *)
Fixpoint inj (n : nat) (q : Qc) : C n :=
  match n with
  | O => q
  | S m => (inj m q, zero m)
  end.

Fixpoint add (n : nat) : C n -> C n -> C n :=
  match n return C n -> C n -> C n with
  | O => Qcplus
  | S m => fun x y => (add m (fst x) (fst y), add m (snd x) (snd y))
  end.

(** Multiplication by the rational [q]. *)
Fixpoint scale (n : nat) (q : Qc) : C n -> C n :=
  match n return C n -> C n with
  | O => Qcmult q
  | S m => fun x => (scale m q (fst x), scale m q (snd x))
  end.

(** Multiplication by the generator of level [n]. *)
Fixpoint mulz (n : nat) : C n -> C n :=
  match n return C n -> C n with
  | O => Qcopp
  | S m => fun x => (mulz m (snd x), fst x)
  end.

(** Multiplication by the inverse of the generator of level [n]. *)
Fixpoint divz (n : nat) : C n -> C n :=
  match n return C n -> C n with
  | O => Qcopp
  | S m => fun x => (snd x, divz m (fst x))
  end.

(** Complex conjugation: the generator goes to its inverse. *)
Fixpoint conj (n : nat) : C n -> C n :=
  match n return C n -> C n with
  | O => fun x => x
  | S m => fun x => (conj m (fst x), divz m (conj m (snd x)))
  end.

Fixpoint eqb (n : nat) : C n -> C n -> bool :=
  match n return C n -> C n -> bool with
  | O => Qc_eq_bool
  | S m => fun x y => eqb m (fst x) (fst y) && eqb m (snd x) (snd y)
  end.

(** The coordinates of an element on the basis 1, z, z^2, ... as reduced
    fractions. *)
Fixpoint interleave {A : Type} (l1 l2 : list A) : list A :=
  match l1, l2 with
  | a :: l1', b :: l2' => a :: b :: interleave l1' l2'
  | _, _ => []
  end.

Fixpoint coords (n : nat) : C n -> list Q :=
  match n return C n -> list Q with
  | O => fun x => [this x]
  | S m => fun x => interleave (coords m (fst x)) (coords m (snd x))
  end.

End Cyc.

(** The numbers of the signal-processing cell: [complex] is the field of
    32nd roots of unity over Q, generated by [z = exp(2 pi i / 32)]. *)
Definition complex : Type := Cyc.C 4.
Definition c0 : complex := Cyc.zero 4.
Definition of_Qc (q : Qc) : complex := Cyc.inj 4 q.
Definition cadd : complex -> complex -> complex := Cyc.add 4.
Definition cscale : Qc -> complex -> complex := Cyc.scale 4.
Definition cconj : complex -> complex := Cyc.conj 4.

(** [rot j x] is [x * z^j]. *)
Definition rot (j : Z) (x : complex) : complex :=
  Nat.iter (Z.to_nat (j mod 32)) (Cyc.mulz 4) x.

(** [cis j] is [z^j = exp(2 pi i j / 32)]. *)
Definition cis (j : Z) : complex := rot j (of_Qc (Q2Qc 1)).

(** The real part of [x], and twice the real part. *)
Definition re2 (x : complex) : complex := cadd x (cconj x).
Definition re (x : complex) : complex := cscale (Q2Qc (1#2)) (re2 x).

Definition csum (l : list complex) : complex := fold_right cadd c0 l.

(** ** numpy's real transforms of size 32 *)

Definition n_fft : nat := 32.
Definition win_length : nat := 4.
(** librosa's default hop: [win_length // 4]. *)
Definition hop_length : nat := win_length / 4.
(** The number of frequency bins of the transform: [1 + n_fft // 2]. *)
Definition n_bins : nat := 1 + n_fft / 2.

(** Bin [k] of [numpy.fft.rfft(x)]: the sum of [x[p] * exp(-2 pi i k p / 32)]. *)
Definition rfft_bin (x : list Qc) (k : nat) : complex :=
  csum (map (fun px => cscale (snd px) (cis (- (Z.of_nat k * Z.of_nat (fst px)))))
            (combine (seq 0 (List.length x)) x)).

Definition rfft (x : list Qc) : list complex :=
  map (rfft_bin x) (seq 0 n_bins).

(** Sample [m] of [numpy.fft.irfft(X, n=32)]: the spectrum is completed by
    Hermitian symmetry, and the imaginary parts of bins 0 and 16 are
    ignored. *)
Definition irfft_sample (X : list complex) (m : nat) : complex :=
  let bin k := nth k X c0 in
  cscale (Q2Qc (1 # 32))
    (cadd (re (bin O))
       (cadd (csum (map (fun k => re2 (rot (Z.of_nat k * Z.of_nat m) (bin k)))
                        (seq 1 (n_fft / 2 - 1))))
             (re (rot (Z.of_nat (n_fft / 2) * Z.of_nat m) (bin (n_fft / 2)%nat))))).

Definition irfft (X : list complex) : list complex :=
  map (irfft_sample X) (seq 0 n_fft).

(** ** librosa's short-time transform and its inverse

    [librosa.stft(y, n_fft=32, win_length=4)] and
    [librosa.istft(S, win_length=4)] with the library's defaults:
    [hop_length = win_length // 4], a periodic Hann window padded with
    zeros to [n_fft], [center=True] with zero padding.  Both work on the
    last axis of their argument, one signal per index of the leading
    axes. *)

(** [scipy.signal.get_window("hann", 4, fftbins=True)]:
    [0.5 - 0.5 cos(2 pi n / 4)] for [n = 0..3]. *)
Definition hann : list Qc := [Q2Qc 0; Q2Qc (1#2); Q2Qc 1; Q2Qc (1#2)].

(** [librosa.util.pad_center(w, size=n)]. *)
Definition pad_center (w : list Qc) (n : nat) : list Qc :=
  let lpad := ((n - List.length w) / 2)%nat in
  repeat (Q2Qc 0) lpad ++ w ++ repeat (Q2Qc 0) (n - List.length w - lpad).

Definition fft_window : list Qc := pad_center hann n_fft.

(** [center=True]: half a frame of zeros on both sides of the signal. *)
Definition center_pad (y : list Qc) : list Qc :=
  repeat (Q2Qc 0) (n_fft / 2) ++ y ++ repeat (Q2Qc 0) (n_fft / 2).

(** Frame [t] of the padded signal, and its product with the window. *)
Definition frame (y_pad : list Qc) (t : nat) : list Qc :=
  firstn n_fft (skipn (t * hop_length) y_pad).

Definition apply_window (fr : list Qc) : list Qc :=
  map (fun wx => Qcmult (fst wx) (snd wx)) (combine fft_window fr).

(** The forward transform of one signal: a list over the frequency bins
    of lists over the frames, shape [(17, 1 + len(y))]. *)
Definition stft1 (y : list Qc) : list (list complex) :=
  let y_pad := center_pad y in
  let n_frames := (1 + (List.length y_pad - n_fft) / hop_length)%nat in
  map (fun k => map (fun t => rfft_bin (apply_window (frame y_pad t)) k)
                    (seq 0 n_frames))
      (seq 0 n_bins).

(** Overlap-add of the frames, frame [t] starting at sample
    [t * hop_length]. *)
Fixpoint vadd (a b : list complex) : list complex :=
  match a, b with
  | [], _ => b
  | _, [] => a
  | x :: a', y :: b' => cadd x y :: vadd a' b'
  end.

Fixpoint overlap_add (frames : list (list complex)) : list complex :=
  match frames with
  | [] => []
  | f :: rest => vadd f (repeat c0 hop_length ++ overlap_add rest)
  end.

(** [librosa.filters.window_sumsquare]: the sum of the squared windows of
    all frames at each sample. *)
Fixpoint vaddQ (a b : list Qc) : list Qc :=
  match a, b with
  | [], _ => b
  | _, [] => a
  | x :: a', y :: b' => Qcplus x y :: vaddQ a' b'
  end.

Fixpoint window_sumsquare (n_frames : nat) : list Qc :=
  match n_frames with
  | O => []
  | S n => vaddQ (map (fun w => Qcmult w w) fft_window)
                 (repeat (Q2Qc 0) hop_length ++ window_sumsquare n)
  end.

(** [librosa.util.tiny] for float64: the smallest positive normal number. *)
Definition tiny : Qc := Q2Qc (1 # (2 ^ 1022)).

Definition Qc_gtb (a b : Qc) : bool :=
  match Qccompare a b with Gt => true | _ => false end.

(** Frame [t] of a spectrogram (bins by frames): its column [t]. *)
Definition column (S : list (list complex)) (t : nat) : list complex :=
  map (fun row => nth t row c0) S.

(** The windowed inverse transform of one column. *)
Definition ifft_frame (col : list complex) : list complex :=
  map (fun wx => cscale (fst wx) (snd wx)) (combine fft_window (irfft col)).

(** The inverse transform of one spectrogram [S] (bins by frames): the
    signal of length [n_frames - 1].  The frame size is the one the 17
    bins of [stft1] stand for, [2 * (17 - 1) = n_fft]; samples where the
    sum of the squared windows does not exceed [tiny] are left
    unnormalised. *)
Definition istft1 (S : list (list complex)) : list complex :=
  let n_frames := List.length (hd [] S) in
  let y := overlap_add (map (fun t => ifft_frame (column S t)) (seq 0 n_frames)) in
  let wss := window_sumsquare n_frames in
  let start := (n_fft / 2)%nat in
  map (fun i =>
         let s := nth (start + i) wss (Q2Qc 0) in
         let v := nth (start + i) y c0 in
         if Qc_gtb s tiny then cscale (Qcinv s) v else v)
      (seq 0 (n_frames - 1)).

(** ** The signal-processing cell *)

(** [get_fft(embedding)] for an embedding matrix (one row per chunk, one
    column per dimension): [librosa.stft] transforms along the last axis,
    so the result has shape [(N, 17, D + 1)]. *)
Definition get_fft (embedding : list (list Qc)) : list (list (list complex)) :=
  map stft1 embedding.

(** [fft_to_embedding(fft)]: [librosa.istft] along the last two axes,
    in exact arithmetic. *)
Definition fft_to_embedding (fft : list (list (list complex))) : list (list complex) :=
  map istft1 fft.

(** [fft.shape[1]] of a rectangular array given as nested lists. *)
Definition shape1 {Cell : Type} (fft : list (list Cell)) : nat :=
  List.length (hd [] fft).

(** [fft[:, a:] = 0] on an array of at least two axes: every cell from
    index [a] on along axis 1 is overwritten with zeros of its shape. *)
Definition zero_from {Cell : Type} (zeros_like : Cell -> Cell) (a : nat)
  (fft : list (list Cell)) : list (list Cell) :=
  map (fun row => firstn a row ++ map zeros_like (skipn a row)) fft.

(** [int(cutoff * n)] for the number [n] of bins, [fft.shape[1]]. *)
Definition cutoff_index (cutoff : pyfloat) (n : nat) : result Z :=
  int_of_float (float_mul cutoff (float_of_size n)).

(** [lowpass_filter(fft, cutoff)] as a function of the array's value; the
    result is the new array the function returns. *)
Definition lowpass_filter_on {Cell : Type} (zeros_like : Cell -> Cell)
  (cutoff : pyfloat) (fft : list (list Cell)) : result (list (list Cell)) :=
  a <- cutoff_index cutoff (shape1 fft) ;;
  Ok (zero_from zeros_like (slice_index (shape1 fft) a) fft).

(** The filter on the arrays [get_fft] produces: axis 0 indexes chunks,
    axis 1 frequency bins, axis 2 frames. *)
Definition lowpass_filter (cutoff : pyfloat) (fft : list (list (list complex)))
  : result (list (list (list complex))) :=
  lowpass_filter_on (map (fun _ => c0)) cutoff fft.

(** The default [cutoff=0.5]. *)
Definition default_cutoff : pyfloat := Finite (1#2).

(** The natural number [n] as a rational. *)
Definition natQ (n : nat) : Qc := Q2Qc (inject_Z (Z.of_nat n)).

(** The sum of the rows of a matrix. *)
Definition vsum (rows : list (list complex)) : list complex :=
  match rows with
  | [] => []
  | r :: rest => fold_left vadd rest r
  end.

(** [np.mean(embeddings, axis=0)], in exact arithmetic (the float64 sum
    of numpy rounds, and its value depends on the order of the rows);
    [None] stands for the NaN numpy returns for an array without rows. *)
Definition mean_axis0 (rows : list (list complex)) : option (list complex) :=
  match rows with
  | [] => None
  | _ => Some (map (cscale (Qcinv (natQ (List.length rows)))) (vsum rows))
  end.

(** The per-document pipeline of the cell: transform, filter when
    [apply_lowpass] is set, transform back, average over the chunks. *)
Definition aggregate (cutoff : pyfloat) (apply_lowpass : bool)
  (embedding : list (list Qc)) : result (option (list complex)) :=
  let fft := get_fft embedding in
  fft' <- (if apply_lowpass then lowpass_filter cutoff fft else Ok fft) ;;
  Ok (mean_axis0 (fft_to_embedding fft')).

(** ** The filter on numpy objects

    [lowpass_filter] rebinds its parameter to a copy ([fft = fft.copy()])
    and assigns into the copy.  Arrays are objects of a store, a Python
    name holds a reference, and a reference is the position of its object
    in the store. *)

Module Obj.

Definition ndarray : Type := list (list (list complex)).
Definition heap : Type := list ndarray.
Definition ref : Type := nat.

Definition deref (h : heap) (r : ref) : ndarray := nth r h [].

(** A new object holding [a]. *)
Definition alloc (a : ndarray) (h : heap) : ref * heap :=
  (List.length h, h ++ [a]).

(** The object at [r] replaced by [a]. *)
Fixpoint update (h : heap) (r : ref) (a : ndarray) : heap :=
  match h, r with
  | [], _ => []
  | _ :: h', O => a :: h'
  | x :: h', S r' => x :: update h' r' a
  end.

(** [fft.copy()]. *)
Definition ndarray_copy (r : ref) (h : heap) : ref * heap :=
  alloc (deref h r) h.

(** [fft[:, a:] = 0], in place. *)
Definition ndarray_zero_from (r : ref) (a : nat) (h : heap) : heap :=
  update h r (zero_from (map (fun _ => c0)) a (deref h r)).

(** [lowpass_filter(fft, cutoff)] on the store: the reference it returns
    (or the exception it raises) and the store it leaves. *)
Definition lowpass_filter_obj (fft : ref) (cutoff : pyfloat) (h : heap)
  : result ref * heap :=
  let (fft', h1) := ndarray_copy fft h in
  let n := shape1 (deref h1 fft') in
  match cutoff_index cutoff n with
  | Raise e => (Raise e, h1)
  | Ok a => (Ok fft', ndarray_zero_from fft' (slice_index n a) h1)
  end.

End Obj.

(** ** Notions used to state and prove the properties *)

(** The window at sample [p] of a frame (zero outside the frame). *)
Definition win (p : nat) : Qc := nth p fft_window (Q2Qc 0).

(** [lin x f b] is the sum over [p] of [x[p] * f (b + p)]: a linear
    combination of the values of [f] with the samples [x] as weights. *)
Definition lin (x : list Qc) (f : nat -> complex) (b : nat) : complex :=
  csum (map (fun px => cscale (snd px) (f (fst px)))
            (combine (seq b (List.length x)) x)).

(** A map of [complex] that is linear over the rationals. *)
Definition linear (L : complex -> complex) : Prop :=
  L c0 = c0
  /\ (forall a b, L (cadd a b) = cadd (L a) (L b))
  /\ (forall q a, L (cscale q a) = cscale q (L a)).

(** The spectrum of the unit impulse at sample [p]. *)
Definition rfft_impulse (p : nat) : list complex :=
  map (fun k => cis (- (Z.of_nat k * Z.of_nat p))) (seq 0 n_bins).

(** Entry [(n, k, t)] of a three-axis array: chunk, frequency bin, frame. *)
Definition entry (fft : list (list (list complex))) (n k t : nat) : option complex :=
  match nth_error fft n with
  | Some slab =>
      match nth_error slab k with
      | Some row => nth_error row t
      | None => None
      end
  | None => None
  end.

(** An array of zeros of the shape of [fft]. *)
Definition zeros_like (fft : list (list (list complex))) : list (list (list complex)) :=
  map (map (map (fun _ => c0))) fft.

(** The lowest (DC) bin of [out] is the one of [fft], in every chunk and
    frame. *)
Definition retains_dc (fft out : list (list (list complex))) : Prop :=
  forall n t, entry out n 0 t = entry fft n 0 t.

(** The forward transform as the specification words it: dimension [d]
    of the matrix is a signal over the chunk position, and there is one
    transform per dimension. *)
Definition dimension_signal (embedding : list (list Qc)) (d : nat) : list Qc :=
  map (fun chunk => nth d chunk (Q2Qc 0)) embedding.

Definition get_fft_per_dimension (embedding : list (list Qc))
  : list (list (list complex)) :=
  map (fun d => stft1 (dimension_signal embedding d))
      (seq 0 (List.length (hd [] embedding))).

(** The two exceptions with which [split_text] rejects an argument are
    the invalid-argument conditions of the specification. *)
Definition InvalidArgument (e : exn) : Prop :=
  match e with
  | TypeError _ | ValueError _ => True
  | OverflowError _ => False
  end.

(** [v] is an [int] instance denoting a positive integer. *)
Definition is_positive_int (v : pyval) : Prop :=
  isinstance_int v = true /\ 0 < int_value v.

(** [v] is a number of the interval [0, 1]. *)
Definition in_unit_interval (v : pyval) : Prop :=
  match v with
  | PyFloat (Finite q) => (0 <= q <= 1)%Q
  | PyInt z => 0 <= z <= 1
  | PyBool _ => True
  | _ => False
  end.

(** The coordinates of the entries of a computed average, for comparing
    two results. *)
Definition result_coords (r : result (option (list complex))) : list (list Q) :=
  match r with
  | Ok (Some v) => map (Cyc.coords 4) v
  | _ => []
  end.

(** The vector whose entries are the given integers. *)
Definition qs (l : list Z) : list Qc := map (fun z => Q2Qc (inject_Z z)) l.

(** A text of [n] one-letter words. *)
Fixpoint words_text (n : nat) : string :=
  match n with
  | O => EmptyString
  | S m => String "w" (String " " (words_text m))
  end.

(** ** The rest of the segmentation cell *)

(** The truth value of a string, as in [if para]. *)
Definition truthy (s : string) : bool :=
  match s with
  | EmptyString => false
  | String _ _ => true
  end.

(** [[para for para in paras if para]] and
    [[para for para in paras if para != '']]. *)
Definition remove_empty (paras : list string) : list string :=
  filter truthy paras.

Definition remove_blank (paras : list string) : list string :=
  filter (fun para => negb (String.eqb para EmptyString)) paras.

(** What the cell computes for one document of the corpus:
    [split_text(doc, segment_length=40)], the overlap left to its default
    0.5, then the two filters. *)
Definition doc_paragraphs (doc : string) : result (list string) :=
  paras <- split_text (PyStr doc) (PyInt 40) (PyFloat (Finite (1#2))) ;;
  Ok (remove_blank (remove_empty paras)).

(** ** Notions used to state the further properties *)

(** [s] contains a separator of [split]. *)
Fixpoint has_space (s : string) : bool :=
  match s with
  | EmptyString => false
  | String c s' => isspace c || has_space s'
  end.

(** Every character of [s] is a separator of [split]. *)
Fixpoint all_space (s : string) : bool :=
  match s with
  | EmptyString => true
  | String c s' => isspace c && all_space s'
  end.

(** A word: a non-empty string without separator. *)
Definition is_word (w : string) : Prop :=
  w <> EmptyString /\ has_space w = false.

(** The words [[k * s, k * s + m)] of a list of words. *)
Definition window (m s : nat) (words : list string) (k : nat) : list string :=
  firstn m (skipn (k * s) words).

(** The number of stride positions below [n]: [ceil(n / s)]. *)
Definition n_windows (s n : nat) : nat := ((n + s - 1) / s)%nat.

(** The window size of a call as a natural number. *)
Definition window_size (segment_length : pyval) : nat :=
  Z.to_nat (int_value segment_length).

(** What the pipeline makes of one chunk when the filter zeroes the bins
    from [a] on: the inverse transform of the filtered transform. *)
Definition filtered_chunk (a : nat) (chunk : list Qc) : list complex :=
  istft1 (firstn a (stft1 chunk) ++ map (map (fun _ => c0)) (skipn a (stft1 chunk))).

(** The first bin the filter zeroes in an array of 17 bins, when the
    index [int(cutoff * 17)] can be computed. *)
Definition cutoff_bin (cutoff : Q) : nat :=
  match cutoff_index (Finite cutoff) n_bins with
  | Ok a => slice_index n_bins a
  | Raise _ => n_bins
  end.

(** The axis lengths of a three-axis array given as nested lists. *)
Definition shape3 (fft : list (list (list complex))) : list (list nat) :=
  map (map (@List.length complex)) fft.

(** * Properties *)

(** ** The field of 32nd roots of unity is a vector space over Q, and
    the maps the transforms are built from are linear. *)

Module CycFacts.
Import Cyc.

Local Open Scope Qc_scope.

Ltac by_level n :=
  induction n as [|n IH]; simpl; intros;
  [ try ring
  | repeat match goal with x : (_ * _)%type |- _ => destruct x end;
    simpl; try (f_equal; auto) ].

Lemma add_comm n : forall x y, add n x y = add n y x.
Proof. by_level n. Qed.

Lemma add_assoc n : forall x y w, add n x (add n y w) = add n (add n x y) w.
Proof. by_level n. Qed.

Lemma add_zero_l n : forall x, add n (zero n) x = x.
Proof. by_level n. Qed.

Lemma add_zero_r n : forall x, add n x (zero n) = x.
Proof. by_level n. Qed.

Lemma scale_zero n : forall q, scale n q (zero n) = zero n.
Proof. by_level n. Qed.

Lemma scale_add n : forall q x y,
  scale n q (add n x y) = add n (scale n q x) (scale n q y).
Proof. by_level n. Qed.

Lemma scale_plus n : forall a b x,
  scale n (a + b) x = add n (scale n a x) (scale n b x).
Proof. by_level n. Qed.

Lemma scale_scale n : forall a b x, scale n a (scale n b x) = scale n (a * b) x.
Proof. by_level n. Qed.

Lemma scale_one n : forall x, scale n (Q2Qc 1) x = x.
Proof. by_level n. Qed.

Lemma scale_0 n : forall x, scale n (Q2Qc 0) x = zero n.
Proof. by_level n. Qed.

Lemma scale_inj n : forall a b, scale n a (inj n b) = inj n (a * b).
Proof. by_level n. apply scale_zero. Qed.

Lemma inj_0 n : inj n (Q2Qc 0) = zero n.
Proof. induction n; simpl; congruence. Qed.

Lemma inj_plus n : forall a b, add n (inj n a) (inj n b) = inj n (a + b).
Proof. by_level n. apply add_zero_l. Qed.

Lemma mulz_zero n : mulz n (zero n) = zero n.
Proof. induction n; simpl; [ring | rewrite IHn; reflexivity]. Qed.

Lemma mulz_add n : forall x y, mulz n (add n x y) = add n (mulz n x) (mulz n y).
Proof. by_level n. Qed.

Lemma mulz_scale n : forall q x, mulz n (scale n q x) = scale n q (mulz n x).
Proof. by_level n. Qed.

Lemma divz_zero n : divz n (zero n) = zero n.
Proof. induction n; simpl; [ring | rewrite IHn; reflexivity]. Qed.

Lemma divz_add n : forall x y, divz n (add n x y) = add n (divz n x) (divz n y).
Proof. by_level n. Qed.

Lemma divz_scale n : forall q x, divz n (scale n q x) = scale n q (divz n x).
Proof. by_level n. Qed.

Lemma conj_zero n : conj n (zero n) = zero n.
Proof. induction n; simpl; [reflexivity | rewrite IHn, divz_zero; reflexivity]. Qed.

Lemma conj_add n : forall x y, conj n (add n x y) = add n (conj n x) (conj n y).
Proof. by_level n. rewrite IH. apply divz_add. Qed.

Lemma conj_scale n : forall q x, conj n (scale n q x) = scale n q (conj n x).
Proof. by_level n. rewrite IH. apply divz_scale. Qed.

Lemma eqb_eq n : forall x y, eqb n x y = true -> x = y.
Proof.
  induction n as [|n IH]; simpl; intros x y H.
  - now apply Qc_eq_bool_correct.
  - destruct x, y; simpl in *. apply andb_prop in H as [H1 H2].
    f_equal; auto.
Qed.

End CycFacts.

(** ** The real transforms of size 32 are inverse to each other *)

Section Linearity.

Import CycFacts.

Lemma cadd_comm a b : cadd a b = cadd b a.
Proof. apply add_comm. Qed.

Lemma cadd_assoc a b c : cadd a (cadd b c) = cadd (cadd a b) c.
Proof. apply add_assoc. Qed.

Lemma cadd_0_l a : cadd c0 a = a.
Proof. apply add_zero_l. Qed.

Lemma cadd_0_r a : cadd a c0 = a.
Proof. apply add_zero_r. Qed.

Lemma cadd_swap a b c d :
  cadd (cadd a b) (cadd c d) = cadd (cadd a c) (cadd b d).
Proof.
  rewrite <- (cadd_assoc a b), (cadd_assoc b c d), (cadd_comm b c).
  now rewrite <- (cadd_assoc c b d), (cadd_assoc a c).
Qed.

Lemma cscale_c0 q : cscale q c0 = c0.
Proof. apply scale_zero. Qed.

Lemma cscale_cadd q a b : cscale q (cadd a b) = cadd (cscale q a) (cscale q b).
Proof. apply scale_add. Qed.

Lemma cscale_cscale a b x : cscale a (cscale b x) = cscale (a * b)%Qc x.
Proof. apply scale_scale. Qed.

Lemma cscale_of_Qc a b : cscale a (of_Qc b) = of_Qc (a * b)%Qc.
Proof. apply scale_inj. Qed.

Lemma of_Qc_0 : of_Qc (Q2Qc 0) = c0.
Proof. apply (inj_0 4). Qed.

Lemma linear_cscale q : linear (cscale q).
Proof.
  split; [|split].
  - apply cscale_c0.
  - apply cscale_cadd.
  - intros r a. rewrite !cscale_cscale. f_equal. ring.
Qed.

Lemma linear_compose L M : linear L -> linear M -> linear (fun x => L (M x)).
Proof.
  intros (L0 & La & Ls) (M0 & Ma & Ms). (split; [|split]); intros.
  - now rewrite M0.
  - now rewrite Ma, La.
  - now rewrite Ms, Ls.
Qed.

Lemma linear_plus L M : linear L -> linear M -> linear (fun x => cadd (L x) (M x)).
Proof.
  intros (L0 & La & Ls) (M0 & Ma & Ms). (split; [|split]); intros.
  - rewrite L0, M0. apply cadd_0_l.
  - rewrite La, Ma. apply cadd_swap.
  - rewrite Ls, Ms. symmetry. apply cscale_cadd.
Qed.

Lemma linear_id : linear (fun x => x).
Proof. split; [|split]; reflexivity. Qed.

Lemma linear_mulz : linear (Cyc.mulz 4).
Proof.
  split; [|split].
  - apply (mulz_zero 4).
  - apply (mulz_add 4).
  - apply (mulz_scale 4).
Qed.

Lemma linear_iter L n : linear L -> linear (Nat.iter n L).
Proof.
  intros HL. induction n as [|n IH].
  - apply linear_id.
  - apply (linear_compose L (Nat.iter n L) HL IH).
Qed.

Lemma linear_rot j : linear (rot j).
Proof. apply linear_iter, linear_mulz. Qed.

Lemma linear_cconj : linear cconj.
Proof.
  split; [|split].
  - apply (conj_zero 4).
  - apply (conj_add 4).
  - apply (conj_scale 4).
Qed.

Lemma linear_re2 : linear re2.
Proof. apply (linear_plus (fun x => x) cconj linear_id linear_cconj). Qed.

Lemma linear_re : linear re.
Proof. apply (linear_compose (cscale (Q2Qc (1#2))) re2 (linear_cscale _) linear_re2). Qed.

Lemma lin_cons a x f b :
  lin (a :: x) f b = cadd (cscale a (f b)) (lin x f (S b)).
Proof. reflexivity. Qed.

Lemma lin_linear L : linear L ->
  forall x f b, L (lin x f b) = lin x (fun p => L (f p)) b.
Proof.
  intros (L0 & La & Ls). induction x as [|a x IH]; intros f b.
  - exact L0.
  - now rewrite !lin_cons, La, Ls, IH.
Qed.

Lemma lin_add x : forall f g b,
  cadd (lin x f b) (lin x g b) = lin x (fun p => cadd (f p) (g p)) b.
Proof.
  induction x as [|a x IH]; intros f g b.
  - apply cadd_0_l.
  - now rewrite !lin_cons, cadd_swap, IH, cscale_cadd.
Qed.

Lemma lin_c0 x : forall b, lin x (fun _ => c0) b = c0.
Proof.
  induction x as [|a x IH]; intros b.
  - reflexivity.
  - now rewrite lin_cons, IH, cscale_c0, cadd_0_l.
Qed.

Lemma lin_csum {K : Type} x (F : K -> nat -> complex) b ks :
  csum (map (fun k => lin x (F k) b) ks)
  = lin x (fun p => csum (map (fun k => F k p) ks)) b.
Proof.
  induction ks as [|k ks IH]; simpl.
  - symmetry. apply lin_c0.
  - now rewrite IH, lin_add.
Qed.

Lemma lin_ext x : forall f g b,
  (forall p, (b <= p < b + List.length x)%nat -> f p = g p) ->
  lin x f b = lin x g b.
Proof.
  induction x as [|a x IH]; intros f g b H.
  - reflexivity.
  - rewrite !lin_cons, (H b) by (simpl; lia). f_equal.
    apply IH. intros p Hp. apply H. simpl. lia.
Qed.

Lemma lin_impulse x : forall b m,
  lin x (fun p => if Nat.eqb p m then of_Qc (Q2Qc 1) else c0) b
  = if (b <=? m)%nat then of_Qc (nth (m - b) x (Q2Qc 0)) else c0.
Proof.
  induction x as [|a x IH]; intros b m.
  - destruct (b <=? m)%nat; [|reflexivity].
    destruct (m - b)%nat; symmetry; apply of_Qc_0.
  - rewrite lin_cons, IH.
    destruct (Nat.eqb_spec b m) as [->|Hne].
    + rewrite Nat.leb_refl, Nat.sub_diag.
      replace (S m <=? m)%nat with false by (symmetry; apply Nat.leb_gt; lia).
      rewrite cadd_0_r, cscale_of_Qc. simpl. f_equal. ring.
    + rewrite cscale_c0, cadd_0_l.
      destruct (Nat.leb_spec b m) as [Hle|Hgt].
      * replace (S b <=? m)%nat with true by (symmetry; apply Nat.leb_le; lia).
        replace (m - b)%nat with (S (m - S b)) by lia. reflexivity.
      * replace (S b <=? m)%nat with false by (symmetry; apply Nat.leb_gt; lia).
        reflexivity.
Qed.

Lemma nth_map_seq {A : Type} (G : nat -> A) d n k :
  (k < n)%nat -> nth k (map G (seq 0 n)) d = G k.
Proof.
  intros H. rewrite (nth_indep _ d (G 0%nat)) by (now rewrite length_map, length_seq).
  rewrite (map_nth G), seq_nth by assumption. reflexivity.
Qed.

Lemma rfft_bin_lin x k :
  rfft_bin x k = lin x (fun p => cis (- (Z.of_nat k * Z.of_nat p))) 0.
Proof. reflexivity. Qed.

(** The inverse transform of a spectrum that is a linear combination of
    spectra is the same combination of their inverse transforms. *)
Lemma irfft_sample_lin x (F : nat -> nat -> complex) m :
  irfft_sample (map (fun k => lin x (F k) 0) (seq 0 n_bins)) m
  = lin x (fun p => irfft_sample (map (fun k => F k p) (seq 0 n_bins)) m) 0.
Proof.
  unfold irfft_sample.
  assert (B : forall (G : nat -> complex) k, (k < n_bins)%nat ->
              nth k (map G (seq 0 n_bins)) c0 = G k)
    by (intros; now apply nth_map_seq).
  rewrite !B by (vm_compute; lia).
  rewrite (map_ext_in _ (fun k => lin x (fun p => re2 (rot (Z.of_nat k * Z.of_nat m) (F k p))) 0)).
  2:{ intros k Hk. apply in_seq in Hk. rewrite B by (vm_compute in Hk |- *; lia).
      rewrite (lin_linear _ (linear_rot _)), (lin_linear _ linear_re2). reflexivity. }
  rewrite lin_csum.
  rewrite (lin_linear _ (linear_rot _)), !(lin_linear _ linear_re), !lin_add.
  rewrite (lin_linear _ (linear_cscale _)).
  apply lin_ext. intros p _.
  rewrite !B by (vm_compute; lia).
  apply f_equal, f_equal, (f_equal (fun c => cadd c _)), f_equal.
  apply map_ext_in. intros k Hk. apply in_seq in Hk.
  rewrite B by (vm_compute in Hk |- *; lia). reflexivity.
Qed.

(** The inverse transform sends the spectrum of every unit impulse back
    to the impulse: a finite check over the 32 times 32 positions. *)
Lemma impulses_recovered :
  forallb (fun m =>
    forallb (fun p =>
      Cyc.eqb 4 (irfft_sample (rfft_impulse p) m)
                (if Nat.eqb p m then of_Qc (Q2Qc 1) else c0))
      (seq 0 n_fft))
    (seq 0 n_fft) = true.
Proof. vm_compute. reflexivity. Qed.

Lemma irfft_impulse m p : (m < n_fft)%nat -> (p < n_fft)%nat ->
  irfft_sample (rfft_impulse p) m = if Nat.eqb p m then of_Qc (Q2Qc 1) else c0.
Proof.
  intros Hm Hp.
  assert (Im : In m (seq 0 n_fft)) by (apply in_seq; lia).
  assert (Ip : In p (seq 0 n_fft)) by (apply in_seq; lia).
  pose proof (proj1 (forallb_forall _ _) impulses_recovered m Im) as H.
  pose proof (proj1 (forallb_forall _ _) H p Ip) as H'.
  exact (eqb_eq 4 _ _ H').
Qed.

Lemma list_as_map_nth {A : Type} (d : A) (l : list A) :
  l = map (fun i => nth i l d) (seq 0 (List.length l)).
Proof.
  apply (nth_ext _ _ d d).
  - now rewrite length_map, length_seq.
  - intros i Hi. now rewrite nth_map_seq.
Qed.

(** [irfft(rfft(x)) = x] for every rational signal of 32 samples. *)
Lemma irfft_rfft x : List.length x = n_fft -> irfft (rfft x) = map of_Qc x.
Proof.
  intros Hx. unfold irfft, rfft.
  rewrite (list_as_map_nth (Q2Qc 0) x) at 2. rewrite map_map, Hx.
  apply map_ext_in. intros m Hm. apply in_seq in Hm.
  rewrite (map_ext _ (fun k => lin x (fun p => cis (- (Z.of_nat k * Z.of_nat p))) 0))
    by (intros; apply rfft_bin_lin).
  rewrite irfft_sample_lin.
  rewrite (lin_ext x _ (fun p => if Nat.eqb p m then of_Qc (Q2Qc 1) else c0)).
  - rewrite lin_impulse. simpl. now rewrite Nat.sub_0_r.
  - intros p Hp. apply irfft_impulse; lia.
Qed.

End Linearity.

(** ** The short-time transform of one signal and its inverse *)

Section ShortTime.

Import CycFacts.
Local Open Scope Qc_scope.
Local Open Scope nat_scope.

Lemma hop_length_1 : hop_length = 1.
Proof. reflexivity. Qed.

Lemma length_fft_window : List.length fft_window = n_fft.
Proof. reflexivity. Qed.

Lemma length_center_pad y : List.length (center_pad y) = List.length y + n_fft.
Proof.
  unfold center_pad. rewrite !length_app, !repeat_length.
  change (n_fft / 2) with 16. change n_fft with 32. lia.
Qed.

Lemma nth_center_pad y i :
  i < List.length y -> nth (n_fft / 2 + i) (center_pad y) (Q2Qc 0) = nth i y (Q2Qc 0).
Proof.
  intros Hi. unfold center_pad.
  rewrite app_nth2 by (rewrite repeat_length; lia).
  rewrite repeat_length. replace (n_fft / 2 + i - n_fft / 2) with i by lia.
  now apply app_nth1.
Qed.

Lemma length_frame y t :
  t <= List.length y -> List.length (frame (center_pad y) t) = n_fft.
Proof.
  intros Ht. unfold frame.
  rewrite length_firstn, length_skipn, length_center_pad, hop_length_1. lia.
Qed.

Lemma nth_frame y_pad t p :
  p < n_fft -> nth p (frame y_pad t) (Q2Qc 0) = nth (t + p)%nat y_pad (Q2Qc 0).
Proof.
  intros Hp. unfold frame. rewrite nth_firstn.
  replace (p <? n_fft) with true by (symmetry; now apply Nat.ltb_lt).
  rewrite nth_skipn, hop_length_1. f_equal. lia.
Qed.

Lemma combine_as_map {A B : Type} (da : A) (db : B) (l1 : list A) (l2 : list B) n :
  List.length l1 = n -> List.length l2 = n ->
  combine l1 l2 = map (fun i => (nth i l1 da, nth i l2 db)) (seq 0 n).
Proof.
  intros H1 H2. apply (nth_ext _ _ (da, db) (da, db)).
  - rewrite length_combine, length_map, length_seq. lia.
  - intros i Hi. rewrite length_combine in Hi.
    rewrite combine_nth by lia. rewrite nth_map_seq by lia. reflexivity.
Qed.

(** The windowed frame [t], sample by sample. *)
Lemma apply_window_frame y t :
  t <= List.length y ->
  apply_window (frame (center_pad y) t)
  = map (fun p => (win p * nth (t + p)%nat (center_pad y) (Q2Qc 0))%Qc) (seq 0 n_fft).
Proof.
  intros Ht. unfold apply_window.
  rewrite (combine_as_map (Q2Qc 0) (Q2Qc 0) _ _ n_fft length_fft_window (length_frame y t Ht)).
  rewrite map_map. apply map_ext_in. intros p Hp. apply in_seq in Hp. simpl fst. simpl snd.
  rewrite nth_frame by lia. reflexivity.
Qed.

Lemma length_apply_window_frame y t :
  t <= List.length y -> List.length (apply_window (frame (center_pad y) t)) = n_fft.
Proof. intros Ht. now rewrite apply_window_frame, length_map, length_seq. Qed.

(** The number of frames of the transform of [y] is [len(y) + 1]. *)
Lemma stft1_n_frames y :
  1 + (List.length (center_pad y) - n_fft) / hop_length = List.length y + 1.
Proof. rewrite length_center_pad, hop_length_1, Nat.div_1_r. lia. Qed.

Lemma stft1_unfold y :
  stft1 y = map (fun k => map (fun t => rfft_bin (apply_window (frame (center_pad y) t)) k)
                              (seq 0 (List.length y + 1)))
                (seq 0 n_bins).
Proof. unfold stft1. cbv zeta. now rewrite stft1_n_frames. Qed.

Lemma length_stft1 y : List.length (stft1 y) = n_bins.
Proof. now rewrite stft1_unfold, length_map, length_seq. Qed.

Lemma hd_stft1 y : List.length (hd [] (stft1 y)) = List.length y + 1.
Proof.
  rewrite stft1_unfold. change (seq 0 n_bins) with (0 :: seq 1 16).
  cbn [map hd]. now rewrite length_map, length_seq.
Qed.

(** Column [t] of the transform is the real transform of the windowed
    frame [t]. *)
Lemma column_stft1 y t :
  t <= List.length y ->
  column (stft1 y) t = rfft (apply_window (frame (center_pad y) t)).
Proof.
  intros Ht. unfold column, rfft. rewrite stft1_unfold, map_map.
  apply map_ext. intros k.
  now rewrite (nth_map_seq (fun t => rfft_bin (apply_window (frame (center_pad y) t)) k)) by lia.
Qed.

(** The windowed inverse transform of column [t] is the frame times the
    squared window. *)
Lemma ifft_frame_stft1 y t :
  t <= List.length y ->
  ifft_frame (column (stft1 y) t)
  = map (fun p => of_Qc (win p * (win p * nth (t + p)%nat (center_pad y) (Q2Qc 0)))%Qc) (seq 0 n_fft).
Proof.
  intros Ht. unfold ifft_frame.
  rewrite column_stft1, irfft_rfft by (auto using length_apply_window_frame).
  rewrite (combine_as_map (Q2Qc 0) c0 _ _ n_fft length_fft_window)
    by (now rewrite length_map, length_apply_window_frame).
  rewrite map_map. apply map_ext_in. intros p Hp. apply in_seq in Hp. simpl fst. simpl snd.
  rewrite apply_window_frame by assumption.
  rewrite (nth_indep _ c0 (of_Qc (Q2Qc 0))) by (now rewrite !length_map, length_seq).
  rewrite (map_nth of_Qc).
  rewrite (nth_map_seq (fun p => (win p * nth (t + p)%nat (center_pad y) (Q2Qc 0))%Qc)) by lia.
  apply cscale_of_Qc.
Qed.

Lemma nth_nil {A : Type} (d : A) j : nth j [] d = d.
Proof. now destruct j. Qed.

Lemma nth_vadd a : forall b j,
  nth j (vadd a b) c0 = cadd (nth j a c0) (nth j b c0).
Proof.
  induction a as [|x a IH]; intros b j.
  - simpl vadd. now rewrite nth_nil, cadd_0_l.
  - destruct b as [|z b].
    + simpl vadd. now rewrite (nth_nil c0), cadd_0_r.
    + destruct j; simpl; [reflexivity | apply IH].
Qed.

Lemma nth_vaddQ a : forall b j,
  nth j (vaddQ a b) (Q2Qc 0) = (nth j a (Q2Qc 0) + nth j b (Q2Qc 0))%Qc.
Proof.
  induction a as [|x a IH]; intros b j.
  - simpl vaddQ. rewrite nth_nil. ring.
  - destruct b as [|z b].
    + simpl vaddQ. rewrite (nth_nil (Q2Qc 0)). ring.
    + destruct j; simpl; [reflexivity | apply IH].
Qed.

Lemma nth_window_sq j :
  nth j (map (fun w => (w * w)%Qc) fft_window) (Q2Qc 0) = (win j * win j)%Qc.
Proof.
  change (Q2Qc 0) with ((fun w => (w * w)%Qc) (Q2Qc 0)) at 1.
  now rewrite map_nth.
Qed.

Lemma window_sumsquare_S n :
  window_sumsquare (S n)
  = vaddQ (map (fun w => (w * w)%Qc) fft_window) (Q2Qc 0 :: window_sumsquare n).
Proof. reflexivity. Qed.

Lemma overlap_add_cons f rest :
  overlap_add (f :: rest) = vadd f (c0 :: overlap_add rest).
Proof. reflexivity. Qed.

(** Overlap-add of frames that are the signal [Y] times the squared
    window gives [Y] times the sum of the squared windows. *)
Lemma overlap_add_window (Y : nat -> Qc) : forall n t0 j,
  nth j (overlap_add
           (map (fun t => map (fun p => of_Qc (win p * (win p * Y (t + p)%nat))%Qc) (seq 0 n_fft))
                (seq t0 n))) c0
  = of_Qc (Y (t0 + j)%nat * nth j (window_sumsquare n) (Q2Qc 0))%Qc.
Proof.
  induction n as [|n IH]; intros t0 j.
  - cbn [seq map overlap_add window_sumsquare]. rewrite !nth_nil.
    rewrite Qcmult_0_r. symmetry. apply of_Qc_0.
  - rewrite window_sumsquare_S, nth_vaddQ, nth_window_sq.
    cbn [seq map]. rewrite overlap_add_cons, nth_vadd.
    assert (Hf : nth j (map (fun p => of_Qc (win p * (win p * Y (t0 + p)%nat))%Qc) (seq 0 n_fft)) c0
                 = of_Qc (win j * (win j * Y (t0 + j)%nat))%Qc).
    { destruct (Nat.lt_ge_cases j n_fft) as [Hj|Hj].
      - now rewrite (nth_map_seq (fun p => of_Qc (win p * (win p * Y (t0 + p)%nat))%Qc)).
      - rewrite nth_overflow by (now rewrite length_map, length_seq).
        unfold win. rewrite (nth_overflow fft_window) by (now rewrite length_fft_window).
        rewrite Qcmult_0_l. symmetry. apply of_Qc_0. }
    rewrite Hf. destruct j as [|j].
    + cbn [nth]. rewrite cadd_0_r. f_equal. ring.
    + cbn [nth]. rewrite IH. unfold cadd, of_Qc. rewrite inj_plus. f_equal.
      replace (t0 + S j) with (S t0 + j) by lia. ring.
Qed.

Lemma window_nonneg j : (Q2Qc 0 <= win j)%Qc.
Proof.
  unfold win.
  destruct (Nat.lt_ge_cases j n_fft) as [Hj|Hj].
  - assert (F : Forall (fun w => (Q2Qc 0 <= w)%Qc) fft_window)
      by (repeat (apply Forall_cons; [vm_compute; discriminate|]); apply Forall_nil).
    rewrite Forall_forall in F. apply F, nth_In. now rewrite length_fft_window.
  - rewrite nth_overflow by (now rewrite length_fft_window). apply Qcle_refl.
Qed.

Lemma window_sq_nonneg j : (Q2Qc 0 <= win j * win j)%Qc.
Proof.
  rewrite <- (Qcmult_0_l (win j)).
  apply Qcmult_le_compat_r; apply window_nonneg.
Qed.

Lemma window_sumsquare_nonneg n : forall j,
  (Q2Qc 0 <= nth j (window_sumsquare n) (Q2Qc 0))%Qc.
Proof.
  induction n as [|n IH]; intros j.
  - cbn [window_sumsquare]. rewrite nth_nil. apply Qcle_refl.
  - rewrite window_sumsquare_S, nth_vaddQ, nth_window_sq.
    replace (Q2Qc 0) with (Q2Qc 0 + Q2Qc 0)%Qc at 1 by ring.
    apply Qcplus_le_compat; [apply window_sq_nonneg|].
    destruct j; cbn [nth]; [apply Qcle_refl | apply IH].
Qed.

(** Frame [t] contributes its squared window to the sum at every sample
    it covers. *)
Lemma window_sumsquare_ge : forall n t j,
  t < n -> (win j * win j <= nth (t + j) (window_sumsquare n) (Q2Qc 0))%Qc.
Proof.
  induction n as [|n IH]; intros t j Ht; [lia|].
  rewrite window_sumsquare_S, nth_vaddQ, nth_window_sq.
  destruct t as [|t].
  - cbn [Nat.add]. rewrite <- (Qcplus_0_r (win j * win j)) at 1.
    apply Qcplus_le_compat; [apply Qcle_refl|].
    destruct j; cbn [nth]; [apply Qcle_refl | apply window_sumsquare_nonneg].
  - cbn [Nat.add nth]. rewrite <- (Qcplus_0_l (win j * win j)) at 1.
    apply Qcplus_le_compat; [apply window_sq_nonneg | apply IH; lia].
Qed.

Lemma tiny_lt_1 : (tiny < Q2Qc 1)%Qc.
Proof. vm_compute. reflexivity. Qed.

Lemma Qc_gtb_true a b : (b < a)%Qc -> Qc_gtb a b = true.
Proof.
  intros H. unfold Qc_gtb.
  assert (G : Qccompare a b = Gt) by (apply Qcgt_alt; exact H).
  now rewrite G.
Qed.

(** The centre of the window has weight one, so the sum of the squared
    windows exceeds [tiny] at every sample of the signal. *)
Lemma window_sumsquare_gt_tiny n i :
  i < n -> Qc_gtb (nth (n_fft / 2 + i) (window_sumsquare n) (Q2Qc 0)) tiny = true.
Proof.
  intros Hi. apply Qc_gtb_true.
  apply (Qclt_le_trans _ (Q2Qc 1)); [apply tiny_lt_1|].
  rewrite (Nat.add_comm (n_fft / 2) i).
  exact (window_sumsquare_ge n i 16 Hi).
Qed.

(** The inverse transform undoes the transform of every signal. *)
Lemma istft1_stft1 y : istft1 (stft1 y) = map of_Qc y.
Proof.
  unfold istft1. cbv zeta. rewrite hd_stft1.
  replace (List.length y + 1 - 1) with (List.length y) by lia.
  assert (E : map of_Qc y
              = map (fun i => of_Qc (nth i y (Q2Qc 0))) (seq 0 (List.length y))).
  { rewrite <- (map_map (fun i => nth i y (Q2Qc 0)) of_Qc).
    apply f_equal, list_as_map_nth. }
  rewrite E.
  apply map_ext_in. intros i Hi. apply in_seq in Hi.
  rewrite window_sumsquare_gt_tiny by lia.
  assert (F : forall t, In t (seq 0 (List.length y + 1)) ->
              ifft_frame (column (stft1 y) t)
              = map (fun p => of_Qc (win p * (win p * nth (t + p)%nat (center_pad y) (Q2Qc 0)))%Qc)
                    (seq 0 n_fft))
    by (intros t Ht; apply in_seq in Ht; apply ifft_frame_stft1; lia).
  rewrite (map_ext_in _ _ _ F).
  rewrite (overlap_add_window (fun s => nth s (center_pad y) (Q2Qc 0))).
  cbn [Nat.add]. rewrite nth_center_pad by lia.
  rewrite cscale_of_Qc. f_equal.
  assert (Hs : nth (n_fft / 2 + i) (window_sumsquare (List.length y + 1)) (Q2Qc 0) <> Q2Qc 0).
  { intros E0. pose proof (window_sumsquare_gt_tiny (List.length y + 1) i ltac:(lia)) as G.
    rewrite E0 in G. vm_compute in G. discriminate. }
  field. exact Hs.
Qed.

End ShortTime.

(** ** Rounding to binary64

    The bounds the index computations need: rounding keeps the sign,
    keeps the order, and moves no number across an integer below 2^53,
    so that an integer below 2^53 is a float. *)

Section Binary64.

Local Open Scope Z_scope.

Lemma rne_bounds x : Qfloor x <= rne x <= Qfloor x + 1.
Proof. unfold rne. cbv zeta. destruct (Qcompare _ _); [destruct (Z.even _)| |]; lia. Qed.

Lemma rne_comp x y : (x == y)%Q -> rne x = rne y.
Proof.
  intros H. unfold rne. cbv zeta. rewrite (Qfloor_comp _ _ H).
  assert (E : (x - inject_Z (Qfloor y) == y - inject_Z (Qfloor y))%Q) by (rewrite H; reflexivity).
  now rewrite (Qcompare_comp _ _ E _ _ (Qeq_refl (1#2))).
Qed.

Lemma rne_le_int x c : (x <= inject_Z c)%Q -> rne x <= c.
Proof.
  intros H. pose proof (Qfloor_resp_le _ _ H) as F. rewrite Qfloor_Z in F.
  destruct (Z.eq_dec (Qfloor x) c) as [E|E].
  - unfold rne. cbv zeta. rewrite E.
    destruct (Qcompare_spec (x - inject_Z c) (1#2)) as [C|C|C]; [lra|lia|lra].
  - pose proof (rne_bounds x). lia.
Qed.

Lemma rne_ge_int x c : (inject_Z c <= x)%Q -> c <= rne x.
Proof.
  intros H. pose proof (Qfloor_resp_le _ _ H) as F. rewrite Qfloor_Z in F.
  pose proof (rne_bounds x). lia.
Qed.

Lemma rne_mono x y : (x <= y)%Q -> rne x <= rne y.
Proof.
  intros H. pose proof (Qfloor_resp_le _ _ H) as F.
  pose proof (rne_bounds x) as Bx. pose proof (rne_bounds y) as By.
  destruct (Z.eq_dec (Qfloor x) (Qfloor y)) as [E|E]; [|lia].
  unfold rne in *. cbv zeta in *. rewrite <- E in *.
  destruct (Qcompare_spec (x - inject_Z (Qfloor x)) (1#2)) as [C|C|C];
    destruct (Qcompare_spec (y - inject_Z (Qfloor x)) (1#2)) as [D|D|D];
    try lia; try lra; destruct (Z.even _); lia.
Qed.


Lemma two_pos k : 0 <= k -> (0 < two k)%Q.
Proof.
  intros H. unfold two. change 0%Q with (inject_Z 0). rewrite <- Zlt_Qlt.
  now apply Z.pow_pos_nonneg.
Qed.

Lemma two_mul (z k : Z) : (inject_Z z * two k == inject_Z (z * 2 ^ k))%Q.
Proof. unfold two. now rewrite inject_Z_mult. Qed.

Lemma binade_nonneg a : 0 <= binade a.
Proof. apply Z.log2_nonneg. Qed.

Lemma round_abs_nonneg a : (0 <= a)%Q -> (0 <= round_abs a)%Q.
Proof.
  intros Ha. unfold round_abs.
  pose proof (binade_nonneg a) as Hj. set (j := binade a) in *.
  assert (Hx : (inject_Z 0 <= a * two 1074 / two j)%Q).
  { apply Qle_shift_div_l; [now apply two_pos|].
    change (inject_Z 0) with 0%Q. rewrite Qmult_0_l.
    apply Qmult_le_0_compat; [assumption|]. apply Qlt_le_weak, two_pos. lia. }
  apply rne_ge_int in Hx.
  apply Qle_shift_div_l; [apply two_pos; lia|].
  rewrite Qmult_0_l. change 0%Q with (inject_Z 0). rewrite <- Zle_Qle.
  apply Z.mul_nonneg_nonneg; [assumption|]. apply Z.pow_nonneg. lia.
Qed.

(** Below 2^53 the exponent of the last place is not positive. *)
Lemma binade_small a M :
  (a <= inject_Z M)%Q -> M < 2 ^ 53 -> binade a <= 1074.
Proof.
  intros Ha HM. unfold binade.
  assert (T : Qfloor (a * two 1022) <= M * 2 ^ 1022).
  { rewrite <- (Qfloor_Z (M * 2 ^ 1022)). apply Qfloor_resp_le.
    rewrite <- two_mul. apply Qmult_le_compat_r; [assumption|].
    apply Qlt_le_weak, two_pos. lia. }
  destruct (Z.le_gt_cases (Qfloor (a * two 1022)) 0) as [N|P].
  - rewrite Z.log2_nonpos by assumption. lia.
  - apply Z.lt_succ_r. apply Z.log2_lt_pow2; [assumption|].
    change (Z.succ 1074) with (53 + 1022). rewrite Z.pow_add_r by lia.
    apply (Z.le_lt_trans _ _ _ T).
    apply Z.mul_lt_mono_pos_r; [apply Z.pow_pos_nonneg; lia | assumption].
Qed.

Lemma pow_split j : 0 <= j <= 1074 -> 2 ^ 1074 = 2 ^ (1074 - j) * 2 ^ j.
Proof. intros H. rewrite <- Z.pow_add_r by lia. f_equal. lia. Qed.

Lemma round_abs_le_int a M :
  (0 <= a)%Q -> (a <= inject_Z M)%Q -> M < 2 ^ 53 -> (round_abs a <= inject_Z M)%Q.
Proof.
  intros H0 Ha HM. pose proof (binade_small a M Ha HM) as Hj.
  pose proof (binade_nonneg a) as Hj0. unfold round_abs. set (j := binade a) in *.
  assert (Hx : (a * two 1074 / two j <= inject_Z (M * 2 ^ (1074 - j)))%Q).
  { apply Qle_shift_div_r; [now apply two_pos|].
    rewrite two_mul, <- Z.mul_assoc, <- pow_split, <- two_mul by lia.
    apply Qmult_le_compat_r; [assumption|]. apply Qlt_le_weak, two_pos. lia. }
  apply rne_le_int in Hx.
  apply Qle_shift_div_r; [apply two_pos; lia|].
  rewrite two_mul, <- Zle_Qle.
  rewrite (pow_split j) by lia. rewrite Z.mul_assoc.
  apply Z.mul_le_mono_nonneg_r; [apply Z.pow_nonneg; lia | assumption].
Qed.

Lemma round_abs_ge_int a M :
  0 <= M < 2 ^ 53 -> (inject_Z M <= a)%Q -> (inject_Z M <= round_abs a)%Q.
Proof.
  intros [HM0 HM] Ha. pose proof (binade_nonneg a) as Hj0.
  unfold round_abs. 
  assert (Hjdef : binade a = Z.log2 (Qfloor (a * two 1022))) by reflexivity.
  set (j := binade a) in *.
  apply Qle_shift_div_l; [apply two_pos; lia|].
  rewrite two_mul, <- Zle_Qle.
  destruct (Z.le_gt_cases j 1074) as [Hj|Hj].
  - assert (Hx : (inject_Z (M * 2 ^ (1074 - j)) <= a * two 1074 / two j)%Q).
    { apply Qle_shift_div_l; [now apply two_pos|].
      rewrite two_mul, <- Z.mul_assoc, <- pow_split, <- two_mul by lia.
      apply Qmult_le_compat_r; [assumption|]. apply Qlt_le_weak, two_pos. lia. }
    apply rne_ge_int in Hx.
    rewrite (pow_split j) by lia. rewrite Z.mul_assoc.
    apply Z.mul_le_mono_nonneg_r; [apply Z.pow_nonneg; lia | assumption].
  - assert (T : 2 ^ j <= Qfloor (a * two 1022)).
    { destruct (Z.le_gt_cases (Qfloor (a * two 1022)) 0) as [N|P].
      - rewrite Z.log2_nonpos in Hjdef by assumption. lia.
      - rewrite Hjdef. now apply Z.log2_spec. }
    assert (Hx : (inject_Z (2 ^ 52) <= a * two 1074 / two j)%Q).
    { apply Qle_shift_div_l; [now apply two_pos|].
      rewrite two_mul.
      apply (Qle_trans _ (inject_Z (2 ^ 52 * Qfloor (a * two 1022)))).
      - rewrite <- Zle_Qle. apply Z.mul_le_mono_nonneg_l; [lia | assumption].
      - rewrite inject_Z_mult.
        apply (Qle_trans _ (inject_Z (2 ^ 52) * (a * two 1022))).
        + apply Qmult_le_l; [reflexivity | apply Qfloor_le].
        + assert (E : (two 1074 == inject_Z (2 ^ 52) * two 1022)%Q).
          { rewrite two_mul. unfold two. now rewrite <- Z.pow_add_r by lia. }
          rewrite E. lra. }
    apply rne_ge_int in Hx.
    assert (P1 : 2 ^ j = 2 ^ (j - 1075) * (2 * 2 ^ 1074)).
    { change (2 * 2 ^ 1074) with (2 ^ 1 * 2 ^ 1074).
      rewrite <- !Z.pow_add_r by lia. f_equal. lia. }
    assert (P2 : 1 <= 2 ^ (j - 1075)) by (apply Z.lt_pred_le, Z.pow_pos_nonneg; lia).
    assert (P3 : 0 < 2 ^ 1074) by (apply Z.pow_pos_nonneg; lia).
    rewrite P1. set (P := 2 ^ 1074) in *. set (R := 2 ^ (j - 1075)) in *.
    set (r := rne _) in *. 
    assert (HM' : M < 2 * 2 ^ 52) by (change (2 * 2 ^ 52) with (2 ^ 53); assumption).
    set (K := 2 ^ 52) in *. assert (0 < K) by (apply Z.pow_pos_nonneg; lia).
    nia.
Qed.

(** The scaled significand lies between 2^52 and 2^53 (below 2^53 for
    the subnormal numbers). *)
Lemma significand_le a :
  (0 <= a)%Q -> rne (a * two 1074 / two (binade a)) <= 2 ^ 53.
Proof.
  intros H0. pose proof (binade_nonneg a) as Hj0.
  assert (Hjdef : binade a = Z.log2 (Qfloor (a * two 1022))) by reflexivity.
  set (j := binade a) in *.
  apply rne_le_int. apply Qle_shift_div_r; [now apply two_pos|].
  rewrite two_mul.
  assert (T : Qfloor (a * two 1022) + 1 <= 2 * 2 ^ j).
  { destruct (Z.le_gt_cases (Qfloor (a * two 1022)) 0) as [N|P].
    - assert (0 < 2 ^ j) by (apply Z.pow_pos_nonneg; lia). lia.
    - pose proof (Z.log2_spec _ P) as [_ U]. rewrite <- Hjdef in U.
      rewrite Z.pow_succ_r in U by assumption. lia. }
  pose proof (Qlt_floor (a * two 1022)) as L.
  assert (L' : (a * two 1022 <= inject_Z (2 * 2 ^ j))%Q).
  { apply Qlt_le_weak. apply (Qlt_le_trans _ _ _ L). now rewrite <- Zle_Qle. }
  assert (E : (two 1074 == inject_Z (2 ^ 52) * two 1022)%Q).
  { rewrite two_mul. unfold two. now rewrite <- Z.pow_add_r by lia. }
  rewrite E.
  assert (E2 : (inject_Z (2 ^ 53 * 2 ^ j) == inject_Z (2 ^ 52) * inject_Z (2 * 2 ^ j))%Q).
  { rewrite <- inject_Z_mult. change (2 ^ 53) with (2 ^ 52 * 2).
    now rewrite Z.mul_assoc. }
  rewrite E2. rewrite Qmult_assoc, (Qmult_comm a), <- Qmult_assoc.
  apply Qmult_le_l; [reflexivity | exact L'].
Qed.

Lemma significand_ge a :
  0 < Qfloor (a * two 1022) -> 2 ^ 52 <= rne (a * two 1074 / two (binade a)).
Proof.
  intros P. pose proof (binade_nonneg a) as Hj0.
  assert (T : 2 ^ binade a <= Qfloor (a * two 1022)) by (now apply Z.log2_spec).
  set (j := binade a) in *.
  apply rne_ge_int. apply Qle_shift_div_l; [now apply two_pos|].
  rewrite two_mul.
  apply (Qle_trans _ (inject_Z (2 ^ 52 * Qfloor (a * two 1022)))).
  - rewrite <- Zle_Qle. apply Z.mul_le_mono_nonneg_l; [lia | assumption].
  - rewrite inject_Z_mult.
    apply (Qle_trans _ (inject_Z (2 ^ 52) * (a * two 1022))).
    + apply Qmult_le_l; [reflexivity | apply Qfloor_le].
    + assert (E : (two 1074 == inject_Z (2 ^ 52) * two 1022)%Q).
      { rewrite two_mul. unfold two. now rewrite <- Z.pow_add_r by lia. }
      rewrite E. lra.
Qed.

Lemma round_abs_mono a b :
  (0 <= a)%Q -> (a <= b)%Q -> (round_abs a <= round_abs b)%Q.
Proof.
  intros H0 Hab.
  assert (Hb0 : (0 <= b)%Q) by (now apply (Qle_trans _ a)).
  assert (T : Qfloor (a * two 1022) <= Qfloor (b * two 1022)).
  { apply Qfloor_resp_le. apply Qmult_le_compat_r; [assumption|].
    apply Qlt_le_weak, two_pos. lia. }
  pose proof (Z.log2_le_mono _ _ T) as J. fold (binade a) in J. fold (binade b) in J.
  pose proof (binade_nonneg a) as Ja0.
  pose proof (significand_le a H0) as Sa.
  assert (Sb : binade a < binade b -> 2 ^ 52 <= rne (b * two 1074 / two (binade b))).
  { intros Lt. apply significand_ge.
    destruct (Z.le_gt_cases (Qfloor (b * two 1022)) 0) as [N|P]; [|assumption].
    unfold binade in Lt at 2. rewrite Z.log2_nonpos in Lt by assumption. lia. }
  unfold round_abs.
  set (ra := rne (a * two 1074 / two (binade a))) in *.
  set (rb := rne (b * two 1074 / two (binade b))) in *.
  unfold Qdiv. apply Qmult_le_compat_r;
    [|apply Qlt_le_weak, Qinv_lt_0_compat, two_pos; lia].
  rewrite <- Zle_Qle.
  destruct (Z.eq_dec (binade a) (binade b)) as [E|E].
  - rewrite <- E. apply Z.mul_le_mono_nonneg_r; [apply Z.pow_nonneg; lia|].
    subst ra rb. apply rne_mono. rewrite <- E.
    unfold Qdiv. apply Qmult_le_compat_r.
    + apply Qmult_le_compat_r; [assumption | apply Qlt_le_weak, two_pos; lia].
    + apply Qlt_le_weak, Qinv_lt_0_compat, two_pos. assumption.
  - assert (Lt : binade a < binade b) by lia. specialize (Sb Lt).
    set (ja := binade a) in *. set (jb := binade b) in *.
    assert (P1 : 2 ^ jb = 2 ^ (jb - ja - 1) * (2 * 2 ^ ja)).
    { change (2 * 2 ^ ja) with (2 ^ 1 * 2 ^ ja).
      rewrite <- !Z.pow_add_r by lia. f_equal. lia. }
    assert (P2 : 1 <= 2 ^ (jb - ja - 1)) by (apply Z.lt_pred_le, Z.pow_pos_nonneg; lia).
    assert (P3 : 0 < 2 ^ ja) by (apply Z.pow_pos_nonneg; lia).
    rewrite P1. change (2 ^ 53) with (2 * 2 ^ 52) in Sa.
    set (K := 2 ^ 52) in *. assert (0 < K) by (apply Z.pow_pos_nonneg; lia).
    set (A := 2 ^ ja) in *. set (R := 2 ^ (jb - ja - 1)) in *.
    assert (S1 : ra * A <= 2 * K * A) by nia.
    assert (S2 : K * (2 * A) <= rb * (2 * A)) by nia.
    assert (S3 : 0 <= rb * (2 * A) * (R - 1)) by (apply Z.mul_nonneg_nonneg; nia).
    nia.
Qed.

Lemma Qred_inject_Z z : Qred (inject_Z z) = inject_Z z.
Proof.
  pose proof (Qred_correct (inject_Z z)) as E.
  pose proof (gcd_Qred (inject_Z z)) as G.
  destruct (Qred (inject_Z z)) as [n d]. unfold Qeq in E. cbn [Qnum Qden inject_Z] in *.
  assert (D : Z.pos d = 1).
  { rewrite <- G. rewrite Z.mul_1_r in E. rewrite E.
    rewrite Z.gcd_comm, Z.mul_comm. symmetry. apply Z.gcd_mul_diag_l. lia. }
  unfold inject_Z. f_equal; lia.
Qed.

Lemma binade_comp x y : (x == y)%Q -> binade x = binade y.
Proof.
  intros H. unfold binade. f_equal. apply Qfloor_comp. now rewrite H.
Qed.

Lemma round_abs_comp x y : (x == y)%Q -> (round_abs x == round_abs y)%Q.
Proof.
  intros H. unfold round_abs. rewrite (binade_comp x y H).
  rewrite (rne_comp (x * two 1074 / two (binade y)) (y * two 1074 / two (binade y)))
    by (now rewrite H).
  reflexivity.
Qed.

Lemma round_finite_comp x y : (x == y)%Q -> round_finite x = round_finite y.
Proof.
  intros H. unfold round_finite. apply Qred_complete.
  rewrite (Qcompare_comp x y H 0%Q 0%Q (Qeq_refl 0%Q)).
  destruct (y ?= 0)%Q; [reflexivity | |].
  - apply Qopp_comp, round_abs_comp. now rewrite H.
  - now apply round_abs_comp.
Qed.

Lemma round_abs_zero q : (q == 0)%Q -> (round_abs q == 0)%Q.
Proof.
  intros E.
  assert (H : (0 <= q)%Q) by (rewrite E; apply Qle_refl).
  pose proof (round_abs_nonneg q H) as N.
  assert (U : (round_abs q <= inject_Z 0)%Q).
  { apply round_abs_le_int; [assumption | rewrite E; apply Qle_refl | reflexivity]. }
  change (inject_Z 0) with 0%Q in U. lra.
Qed.

Lemma round_finite_nonneg q : (0 <= q)%Q -> (round_finite q == round_abs q)%Q.
Proof.
  intros H. unfold round_finite. rewrite Qred_correct.
  destruct (Qcompare_spec q 0) as [E|L|G]; [|lra|reflexivity].
  now rewrite (round_abs_zero q E).
Qed.

Lemma round_finite_nonpos q : (q <= 0)%Q -> (round_finite q == - round_abs (- q))%Q.
Proof.
  intros H. unfold round_finite. rewrite Qred_correct.
  destruct (Qcompare_spec q 0) as [E|L|G]; [|reflexivity|lra].
  assert (E' : (- q == 0)%Q) by (rewrite E; reflexivity).
  rewrite (round_abs_zero (- q) E'). reflexivity.
Qed.

Lemma threshold_above : (inject_Z (2 ^ 53) < overflow_threshold)%Q.
Proof. unfold overflow_threshold. rewrite <- Zlt_Qlt. reflexivity. Qed.

Lemma Qle_bool_true a b : (a <= b)%Q -> Qle_bool a b = true.
Proof. apply Qle_bool_iff. Qed.

Lemma Qle_bool_false a b : (b < a)%Q -> Qle_bool a b = false.
Proof.
  intros H. destruct (Qle_bool a b) eqn:E; [|reflexivity].
  apply Qle_bool_iff in E. exfalso. exact (Qlt_not_le _ _ H E).
Qed.

Lemma round64_comp x y : (x == y)%Q -> round64 x = round64 y.
Proof.
  intros H. unfold round64.
  rewrite (Qleb_comp _ _ (Qeq_refl overflow_threshold) x y H).
  rewrite (Qleb_comp x y H _ _ (Qeq_refl (- overflow_threshold))).
  now rewrite (round_finite_comp x y H).
Qed.

Lemma round64_finite q :
  (- overflow_threshold < q)%Q -> (q < overflow_threshold)%Q ->
  round64 q = Finite (round_finite q).
Proof.
  intros L U. unfold round64. now rewrite !Qle_bool_false.
Qed.

Lemma round64_zero q : (q == 0)%Q -> round64 q = Finite 0.
Proof. intros E. now rewrite (round64_comp q 0 E). Qed.

Lemma round64_between x (lo hi : Z) :
  0 <= lo -> hi < 2 ^ 53 -> (inject_Z lo <= x <= inject_Z hi)%Q ->
  exists p, round64 x = Finite p /\ (inject_Z lo <= p <= inject_Z hi)%Q.
Proof.
  intros Hlo Hhi [L U].
  assert (X0 : (0 <= x)%Q).
  { apply (Qle_trans _ (inject_Z lo)); [|assumption].
    change 0%Q with (inject_Z 0). now rewrite <- Zle_Qle. }
  assert (Hhi' : (inject_Z hi < inject_Z (2 ^ 53))%Q) by (now rewrite <- Zlt_Qlt).
  pose proof threshold_above as T.
  assert (T0 : (0 < overflow_threshold)%Q) by reflexivity.
  exists (round_finite x). split.
  - apply round64_finite; lra.
  - rewrite (round_finite_nonneg x X0). split.
    + apply round_abs_ge_int; [|assumption].
      split; [assumption|]. apply (Z.le_lt_trans _ hi); [|assumption].
      rewrite Zle_Qle. lra.
    + now apply round_abs_le_int.
Qed.

Lemma round64_ge x (lo : Z) :
  0 <= lo < 2 ^ 53 -> (inject_Z lo <= x)%Q -> (x < overflow_threshold)%Q ->
  exists p, round64 x = Finite p /\ (inject_Z lo <= p)%Q.
Proof.
  intros Hlo L U.
  assert (X0 : (0 <= x)%Q).
  { apply (Qle_trans _ (inject_Z lo)); [|assumption].
    change 0%Q with (inject_Z 0). rewrite <- Zle_Qle. lia. }
  assert (T0 : (0 < overflow_threshold)%Q) by reflexivity.
  exists (round_finite x). split.
  - apply round64_finite; lra.
  - rewrite (round_finite_nonneg x X0). now apply round_abs_ge_int.
Qed.

Lemma round64_nonpos x :
  (x <= 0)%Q -> (- overflow_threshold < x)%Q ->
  exists p, round64 x = Finite p /\ (p <= 0)%Q.
Proof.
  intros X0 L.
  assert (T0 : (0 < overflow_threshold)%Q) by reflexivity.
  exists (round_finite x). split.
  - apply round64_finite; lra.
  - rewrite (round_finite_nonpos x X0).
    assert (N : (0 <= - x)%Q) by lra.
    pose proof (round_abs_nonneg (- x) N). lra.
Qed.

Lemma round64_mono x y :
  (0 <= x)%Q -> (x <= y)%Q -> (y < overflow_threshold)%Q ->
  exists p p', round64 x = Finite p /\ round64 y = Finite p' /\ (0 <= p <= p')%Q.
Proof.
  intros X0 XY U.
  assert (T0 : (0 < overflow_threshold)%Q) by reflexivity.
  exists (round_finite x), (round_finite y). split; [|split].
  - apply round64_finite; lra.
  - apply round64_finite; lra.
  - rewrite (round_finite_nonneg x X0), (round_finite_nonneg y) by lra. split.
    + now apply round_abs_nonneg.
    + now apply round_abs_mono.
Qed.

Lemma round64_nonneg x :
  (0 <= x)%Q ->
  round64 x = PosInf \/ exists p, round64 x = Finite p /\ (0 <= p)%Q.
Proof.
  intros X0. destruct (Qlt_le_dec x overflow_threshold) as [U|U].
  - right. destruct (round64_mono x x X0 (Qle_refl x) U) as (p & _ & E & _ & [P _]).
    exists p. now split.
  - left. unfold round64. apply Qle_bool_iff in U. now rewrite U.
Qed.

Lemma round_finite_int z : 0 <= z < 2 ^ 53 -> round_finite (inject_Z z) = inject_Z z.
Proof.
  intros [Z0 Z1].
  assert (X0 : (0 <= inject_Z z)%Q)
    by (change 0%Q with (inject_Z 0); now rewrite <- Zle_Qle).
  assert (Eq : (round_finite (inject_Z z) == inject_Z z)%Q).
  { rewrite (round_finite_nonneg _ X0). apply Qle_antisym.
    - apply round_abs_le_int; [assumption | apply Qle_refl | assumption].
    - apply round_abs_ge_int; [now split | apply Qle_refl]. }
  unfold round_finite in *.
  rewrite Qred_correct in Eq. rewrite (Qred_complete _ _ Eq). apply Qred_inject_Z.
Qed.

Lemma round64_int z : 0 <= z < 2 ^ 53 -> round64 (inject_Z z) = Finite (inject_Z z).
Proof.
  intros [Z0 Z1].
  assert (X0 : (0 <= inject_Z z)%Q)
    by (change 0%Q with (inject_Z 0); now rewrite <- Zle_Qle).
  assert (T : (inject_Z z < inject_Z (2 ^ 53))%Q) by (now rewrite <- Zlt_Qlt).
  pose proof threshold_above as T'.
  assert (T0 : (0 < overflow_threshold)%Q) by reflexivity.
  rewrite round64_finite by lra. now rewrite round_finite_int.
Qed.

(** The largest float is below the overflow threshold. *)
Lemma max_float_below : (max_float < overflow_threshold)%Q.
Proof. unfold max_float, overflow_threshold. rewrite <- Zlt_Qlt. reflexivity. Qed.

(** *** The operations of the notebook's index computations *)

Lemma float_of_int_exact z :
  0 <= z < 2 ^ 53 -> float_of_int z = Ok (Finite (inject_Z z)).
Proof. intros H. unfold float_of_int. now rewrite round64_int. Qed.

Lemma float_of_int_finite z f : float_of_int z = Ok f -> exists q, f = Finite q.
Proof.
  unfold float_of_int. destruct (round64 (inject_Z z)) as [q| | |]; try discriminate.
  intros H. injection H as <-. now exists q.
Qed.

Lemma float_of_int_nonneg z :
  0 <= z ->
  float_of_int z = Raise (OverflowError "int too large to convert to float")
  \/ exists q, float_of_int z = Ok (Finite q) /\ (0 <= q)%Q.
Proof.
  intros H. unfold float_of_int.
  assert (X0 : (0 <= inject_Z z)%Q)
    by (change 0%Q with (inject_Z 0); now rewrite <- Zle_Qle).
  destruct (round64_nonneg _ X0) as [E|(p & E & P)]; rewrite E.
  - now left.
  - right. now exists p.
Qed.

Lemma float_of_size_exact n :
  Z.of_nat n < 2 ^ 53 -> float_of_size n = Finite (inject_Z (Z.of_nat n)).
Proof. intros H. unfold float_of_size. rewrite round_finite_int; [reflexivity | lia]. Qed.

Lemma float_of_size_bounds n :
  exists b, float_of_size n = Finite b /\ (0 <= b)%Q /\ (n <> 0%nat -> (1 <= b)%Q).
Proof.
  exists (round_finite (inject_Z (Z.of_nat n))). split; [reflexivity|].
  assert (X0 : (0 <= inject_Z (Z.of_nat n))%Q)
    by (change 0%Q with (inject_Z 0); rewrite <- Zle_Qle; lia).
  rewrite (round_finite_nonneg _ X0). split.
  - now apply round_abs_nonneg.
  - intros Hn. apply (round_abs_ge_int _ 1); [split; [lia | reflexivity]|].
    rewrite <- Zle_Qle. lia.
Qed.

Lemma float_sub_unit q :
  (0 <= q <= 1)%Q ->
  exists d, float_sub (Finite 1) (Finite q) = Finite d /\ (0 <= d <= 1)%Q.
Proof.
  intros [Q0 Q1]. cbn [float_sub].
  apply (round64_between (1 - q) 0 1); [lia | reflexivity |].
  change (inject_Z 0) with 0%Q. change (inject_Z 1) with 1%Q. lra.
Qed.

Lemma float_mul_zero_l y : float_mul (Finite 0) (Finite y) = Finite 0.
Proof. cbn [float_mul]. apply round64_zero. ring. Qed.

Lemma float_mul_zero_r x : float_mul (Finite x) (Finite 0) = Finite 0.
Proof. cbn [float_mul]. apply round64_zero. ring. Qed.

Lemma int_of_float_nonneg q : (0 <= q)%Q -> int_of_float (Finite q) = Ok (Qfloor q).
Proof. intros H. cbn [int_of_float]. now rewrite (Qle_bool_true 0 q H). Qed.

Lemma int_of_float_nonpos q : (q <= 0)%Q -> int_of_float (Finite q) = Ok (Qceiling q).
Proof.
  intros H. cbn [int_of_float]. destruct (Qle_bool 0 q) eqn:E; [|reflexivity].
  apply Qle_bool_iff in E.
  assert (Z0 : (q == 0)%Q) by (now apply Qle_antisym).
  now rewrite Z0.
Qed.

Lemma Qfloor_nonneg q : (0 <= q)%Q -> 0 <= Qfloor q.
Proof. intros H. change 0 with (Qfloor 0). now apply Qfloor_resp_le. Qed.

End Binary64.

(** ** Words, windows and the filters of the cell *)

Section SegmenterWords.

Local Open Scope nat_scope.
Local Open Scope string_scope.

Lemma append_empty_r (s : string) : s ++ "" = s.
Proof. induction s as [|c s IH]; simpl; congruence. Qed.

Lemma append_assoc' (a b c : string) : (a ++ b) ++ c = a ++ (b ++ c).
Proof. induction a as [|x a IH]; simpl; congruence. Qed.

Lemma has_space_append (a b : string) :
  has_space (a ++ b) = has_space a || has_space b.
Proof.
  induction a as [|x a IH]; [reflexivity|].
  cbn [append has_space]. now rewrite IH, orb_assoc.
Qed.

Lemma append_not_empty (a : string) (c : ascii) : a ++ String c "" <> "".
Proof. destruct a; discriminate. Qed.

(** [split] returns words. *)
Lemma split_from_words : forall s cur,
  cur = "" \/ is_word cur -> Forall is_word (split_from cur s).
Proof.
  induction s as [|c s IH]; intros cur Hcur.
  - cbn [split_from]. destruct Hcur as [->|Hw]; [constructor|].
    destruct cur; [constructor | constructor; [assumption | constructor]].
  - cbn [split_from]. destruct (isspace c) eqn:Ec.
    + assert (Hrest : Forall is_word (split_from "" s)) by (apply IH; now left).
      destruct Hcur as [->|Hw]; [assumption|].
      destruct cur; [assumption | now constructor].
    + apply IH. right. split; [apply append_not_empty|].
      rewrite has_space_append. cbn [has_space]. rewrite Ec.
      destruct Hcur as [->|[_ Hw]]; [reflexivity | now rewrite Hw].
Qed.

Lemma split_words (text : string) : Forall is_word (split text).
Proof. apply split_from_words. now left. Qed.

(** Reading a stretch without separator extends the current word. *)
Lemma split_from_append : forall w cur rest,
  has_space w = false -> split_from cur (w ++ rest) = split_from (cur ++ w) rest.
Proof.
  induction w as [|c w IH]; intros cur rest Hw.
  - now rewrite append_empty_r.
  - cbn [has_space] in Hw. apply orb_false_iff in Hw as [Hc Hw].
    cbn [append split_from]. rewrite Hc, (IH _ _ Hw), append_assoc'. reflexivity.
Qed.

Lemma split_from_end (w : string) : w <> "" -> split_from w "" = [w].
Proof. intros H. destruct w; [contradiction | reflexivity]. Qed.

(** [" ".join(words).split()] gives the words back. *)
Lemma split_join (ws : list string) :
  Forall is_word ws -> split (join " " ws) = ws.
Proof.
  unfold split, join. destruct ws as [|w ws]; [reflexivity|].
  revert w. induction ws as [|w' ws IH]; intros w H.
  - inversion H as [|? ? [Hne Hsp] _]; subst. cbn [concat].
    rewrite <- (append_empty_r w) at 1.
    now rewrite (split_from_append w "" "" Hsp), split_from_end.
  - inversion H as [|? ? [Hne Hsp] Hrest]; subst.
    change (concat " " (w :: w' :: ws)) with (w ++ String " " (concat " " (w' :: ws))).
    rewrite (split_from_append w "" _ Hsp). cbn [append].
    destruct w as [|c w]; [contradiction|].
    cbn [split_from]. change (isspace " ") with true. cbn iota.
    now rewrite (IH w' Hrest).
Qed.

Lemma join_not_empty (w : string) (ws : list string) :
  w <> "" -> join " " (w :: ws) <> "".
Proof.
  intros Hw. unfold join. destruct ws as [|w' ws]; [exact Hw|].
  change (concat " " (w :: w' :: ws)) with (w ++ String " " (concat " " (w' :: ws))).
  destruct w; [contradiction | discriminate].
Qed.

Lemma split_all_space : forall s, all_space s = true -> split_from "" s = [].
Proof.
  induction s as [|c s IH]; intros H; [reflexivity|].
  cbn [all_space] in H. apply andb_prop in H as [Hc Hs].
  cbn [split_from]. now rewrite Hc, (IH Hs).
Qed.

Lemma in_firstn {A : Type} (x : A) n l : In x (firstn n l) -> In x l.
Proof. intros H. rewrite <- (firstn_skipn n l). apply in_or_app. now left. Qed.

Lemma in_skipn {A : Type} (x : A) n l : In x (skipn n l) -> In x l.
Proof. intros H. rewrite <- (firstn_skipn n l). apply in_or_app. now right. Qed.

Lemma Forall_window (P : string -> Prop) m s words k :
  Forall P words -> Forall P (window m s words k).
Proof.
  intros H. unfold window. rewrite Forall_forall in *. intros x Hx.
  apply H. eapply in_skipn, in_firstn, Hx.
Qed.

Lemma n_windows_spec s n k : 1 <= s -> (k < n_windows s n <-> k * s < n).
Proof.
  intros Hs. unfold n_windows. split; intros H.
  - pose proof (Nat.div_mod_eq (n + s - 1) s) as E.
    pose proof (Nat.mod_upper_bound (n + s - 1) s ltac:(lia)) as B. nia.
  - apply (Nat.div_le_lower_bound (n + s - 1) s (S k)); [lia | nia].
Qed.

(** A window that starts below the number of words and has a positive
    size is not empty. *)
Lemma window_not_nil m s (words : list string) k :
  1 <= m -> k * s < List.length words -> window m s words k <> [].
Proof.
  intros Hm Hk E. apply (f_equal (@List.length string)) in E.
  unfold window in E. rewrite length_firstn, length_skipn in E. cbn in E. lia.
Qed.

Lemma remove_empty_id (paras : list string) :
  Forall (fun para => para <> "") paras ->
  remove_blank (remove_empty paras) = paras.
Proof.
  intros H. unfold remove_blank, remove_empty.
  rewrite (forallb_filter_id truthy).
  - apply forallb_filter_id. apply forallb_forall. intros x Hx.
    rewrite Forall_forall in H. apply negb_true_iff, String.eqb_neq. now apply H.
  - apply forallb_forall. intros x Hx.
    rewrite Forall_forall in H. specialize (H x Hx). now destruct x.
Qed.

End SegmenterWords.

(** ** The segmenter *)

Section Segmenter.

Local Open Scope Z_scope.

Example split_text_demo :
  split_text (PyStr "a b  c d e") (PyInt 2) (PyFloat (Finite (1#2)))
  = Ok ["a b"; "b c"; "c d"; "d e"; "e"]%string.
Proof. vm_compute. reflexivity. Qed.

(** The stride is computed in binary64.  With a window of 10 words and
    the float 0.1 as overlap, [1 - 0.1] is the float 0.9 and [10 * 0.9]
    rounds to 9.0: the stride is 9, where the exact product
    [10 * (1 - 0.1)] lies below 9. *)
Example skip_of_rounds_up :
  skip_of 10 (Finite (3602879701896397 # 36028797018963968)) = Ok 9
  /\ Qfloor (10 * (1 - (3602879701896397 # 36028797018963968))) = 8.
Proof. split; vm_compute; reflexivity. Qed.

(** With a window of one word and an overlap of [2^-60], [1 - 2^-60]
    rounds to 1.0: the stride is 1 and the call returns, where the exact
    product has floor 0. *)
Example split_text_tiny_overlap :
  split_text (PyStr "a b c") (PyInt 1) (PyFloat (Finite (1 # 2 ^ 60)))
  = Ok ["a"; "b"; "c"]%string
  /\ Qfloor (1 * (1 - (1 # 2 ^ 60))) = 0.
Proof. split; vm_compute; reflexivity. Qed.

(** A window size beyond the range of the floats cannot be multiplied
    with a float. *)
Example split_text_huge_window :
  split_text (PyStr "a b c") (PyInt (10 ^ 400)) (PyFloat (Finite (1#2)))
  = Raise (OverflowError "int too large to convert to float").
Proof. vm_compute. reflexivity. Qed.

(** The three checks at the head of [split_text]. *)
Lemma split_text_not_str text segment_length overlap_percent :
  isinstance_str text = false ->
  split_text text segment_length overlap_percent
  = Raise (TypeError "text must be a string").
Proof. intros H. unfold split_text. now rewrite H. Qed.

Lemma split_text_bad_length text segment_length overlap_percent :
  isinstance_str text = true ->
  ~ is_positive_int segment_length ->
  split_text text segment_length overlap_percent
  = Raise (ValueError "segment_length must be a positive integer").
Proof.
  intros Ht Hs. unfold split_text. rewrite Ht. cbn [negb].
  destruct (isinstance_int segment_length) eqn:Ei; cbn [negb orb]; [|reflexivity].
  destruct (Z.leb_spec (int_value segment_length) 0) as [Hle|Hgt]; [reflexivity|].
  exfalso. apply Hs. split; [assumption | lia].
Qed.

Lemma split_text_valid_head text segment_length :
  isinstance_str text = true ->
  is_positive_int segment_length ->
  forall overlap_percent,
  split_text text segment_length overlap_percent
  = if negb (isinstance_float overlap_percent)
       || float_lt (float_value overlap_percent) (Finite 0)
       || float_lt (Finite 1) (float_value overlap_percent)
    then Raise (ValueError "overlap_percent must be a float between 0 and 1")
    else
      let words := split (match text with PyStr s => s | _ => EmptyString end) in
      skip <- skip_of (int_value segment_length) (float_value overlap_percent) ;;
      idx <- range 0 (Z.of_nat (List.length words)) skip ;;
      Ok (map (fun i => join " " (slice words i (i + int_value segment_length))) idx).
Proof.
  intros Ht [Hi Hp] op. unfold split_text. rewrite Ht, Hi. cbn [negb orb].
  replace (int_value segment_length <=? 0) with false
    by (symmetry; apply Z.leb_gt; lia).
  reflexivity.
Qed.

(** After the validation, for a finite overlap of [0, 1]. *)
Lemma split_text_finite (text : string) (segment_length : pyval) (q : Q) :
  is_positive_int segment_length ->
  (0 <= q <= 1)%Q ->
  split_text (PyStr text) segment_length (PyFloat (Finite q))
  = (skip <- skip_of (int_value segment_length) (Finite q) ;;
     idx <- range 0 (Z.of_nat (List.length (split text))) skip ;;
     Ok (map (fun i => join " " (slice (split text) i (i + int_value segment_length))) idx)).
Proof.
  intros Hs [Hq0 Hq1].
  rewrite (split_text_valid_head (PyStr text) segment_length eq_refl Hs).
  cbn [isinstance_float float_value float_lt negb orb].
  now rewrite (Qle_bool_true 0 q Hq0), (Qle_bool_true q 1 Hq1).
Qed.

Lemma split_text_rejects text segment_length overlap_percent :
  isinstance_str text = false \/ ~ is_positive_int segment_length
  \/ (~ in_unit_interval overlap_percent /\ overlap_percent <> PyFloat NaN) ->
  exists e, split_text text segment_length overlap_percent = Raise e
            /\ InvalidArgument e.
Proof.
  intros H.
  destruct (isinstance_str text) eqn:Ht.
  2:{ eexists. split; [now apply split_text_not_str | exact I]. }
  assert (Dec : is_positive_int segment_length \/ ~ is_positive_int segment_length).
  { unfold is_positive_int. destruct (isinstance_int segment_length).
    - destruct (Z.lt_ge_cases 0 (int_value segment_length)); [left; auto | right; lia].
    - right. intros [E _]. discriminate. }
  destruct Dec as [Hs|Hs].
  2:{ eexists. split; [now apply split_text_bad_length | exact I]. }
  destruct H as [H|[H|[H Hnan]]]; [discriminate | contradiction |].
  rewrite (split_text_valid_head text segment_length Ht Hs).
  destruct overlap_percent as [s|z|b|f|]; cbn [isinstance_float negb orb];
    try (eexists; split; [reflexivity | exact I]).
  destruct f as [q| | |]; cbn [float_value float_lt].
  - cbn [in_unit_interval] in H.
    destruct (Qlt_le_dec q 0) as [Hq|Hq].
    + rewrite (Qle_bool_false 0 q Hq). cbn [negb orb].
      eexists; split; [reflexivity | exact I].
    + destruct (Qlt_le_dec 1 q) as [Hq1|Hq1].
      * rewrite (Qle_bool_false q 1 Hq1). rewrite orb_true_r.
        eexists; split; [reflexivity | exact I].
      * exfalso. apply H. split; assumption.
  - eexists; split; [reflexivity | exact I].
  - eexists; split; [reflexivity | exact I].
  - now contradiction Hnan.
Qed.

(** C7. The segmenter rejects invalid input: a window size of 0 and an
    overlap of 1.5 both end in an invalid-argument exception, whatever
    the text; and so does every call whose text is not a string, whose
    window size is not a positive integer or whose overlap is not a number
    of the interval [0, 1].  NaN, which is neither inside nor outside the
    interval, is left out here: it passes the validation. *)
Theorem split_text_rejects_invalid_input :
  (forall text overlap_percent,
      exists e, split_text text (PyInt 0) overlap_percent = Raise e
                /\ InvalidArgument e)
  /\ (forall text,
      exists e, split_text text (PyInt 5) (PyFloat (Finite (3#2))) = Raise e
                /\ InvalidArgument e)
  /\ (forall text segment_length overlap_percent,
      isinstance_str text = false \/ ~ is_positive_int segment_length
      \/ (~ in_unit_interval overlap_percent /\ overlap_percent <> PyFloat NaN) ->
      exists e, split_text text segment_length overlap_percent = Raise e
                /\ InvalidArgument e).
Proof.
  split; [|split].
  - intros text op. apply split_text_rejects. right; left.
    intros [_ H]. cbn in H. lia.
  - intros text. apply split_text_rejects. right; right. split; [|discriminate].
    intros [_ H]. vm_compute in H. apply H. reflexivity.
  - apply split_text_rejects.
Qed.

Lemma split_text_rejects_invalid_input_witness :
  exists e, split_text (PyStr "to be or not to be") (PyInt (10 ^ 400)) (PyFloat (Finite (-1#2)))
            = Raise e
            /\ InvalidArgument e.
Proof.
  apply (proj2 (proj2 split_text_rejects_invalid_input)).
  right; right. split; [|discriminate].
  intros [H _]. vm_compute in H. apply H. reflexivity.
Defined.

(** C10. The overlap must be a float instance: the integers 0 and 1,
    although inside the documented range, are rejected for every text and
    every positive window size. *)
Theorem split_text_rejects_integer_overlap (text : string) (segment_length : pyval) :
  is_positive_int segment_length ->
  split_text (PyStr text) segment_length (PyInt 0)
  = Raise (ValueError "overlap_percent must be a float between 0 and 1")
  /\ split_text (PyStr text) segment_length (PyInt 1)
     = Raise (ValueError "overlap_percent must be a float between 0 and 1").
Proof.
  intros Hs.
  split; now rewrite (split_text_valid_head (PyStr text) segment_length eq_refl Hs).
Qed.

Lemma split_text_rejects_integer_overlap_witness :
  split_text (PyStr "to be or not to be") (PyInt 40) (PyInt 0)
  = Raise (ValueError "overlap_percent must be a float between 0 and 1")
  /\ split_text (PyStr "to be or not to be") (PyInt 40) (PyInt 1)
     = Raise (ValueError "overlap_percent must be a float between 0 and 1").
Proof.
  apply (split_text_rejects_integer_overlap "to be or not to be" (PyInt 40)).
  split; reflexivity.
Defined.

(** *** The stride *)

(** For a window size below 2^53 and an overlap of [0, 1] the stride is
    computed, and lies between 0 and the window size. *)
Lemma skip_of_bounds (m : Z) (q : Q) :
  0 < m < 2 ^ 53 -> (0 <= q <= 1)%Q ->
  exists s, skip_of m (Finite q) = Ok s /\ 0 <= s <= m.
Proof.
  intros [M0 M1] Hq. unfold skip_of.
  rewrite float_of_int_exact by lia. cbn [bind].
  destruct (float_sub_unit q Hq) as (d & -> & D0 & D1). cbn [float_mul].
  assert (M0' : (0 < inject_Z m)%Q)
    by (change 0%Q with (inject_Z 0); now rewrite <- Zlt_Qlt).
  destruct (round64_between (inject_Z m * d) 0 m) as (p & -> & P0 & P1);
    [lia | assumption | change (inject_Z 0) with 0%Q; split; nra |].
  change (inject_Z 0) with 0%Q in P0.
  rewrite (int_of_float_nonneg p P0). eexists. split; [reflexivity|]. split.
  - now apply Qfloor_nonneg.
  - rewrite <- (Qfloor_Z m). now apply Qfloor_resp_le.
Qed.

(** Whatever the window size, a stride that is computed is not negative. *)
Lemma skip_of_nonneg (m : Z) (q : Q) (s : Z) :
  0 < m -> (0 <= q <= 1)%Q -> skip_of m (Finite q) = Ok s -> 0 <= s.
Proof.
  intros M0 Hq. unfold skip_of.
  destruct (float_of_int_nonneg m) as [->|(f & -> & F0)]; [lia | discriminate |].
  cbn [bind]. destruct (float_sub_unit q Hq) as (d & -> & D0 & D1). cbn [float_mul].
  assert (X0 : (0 <= f * d)%Q) by nra.
  destruct (round64_nonneg _ X0) as [->|(p & -> & P0)]; [discriminate|].
  rewrite (int_of_float_nonneg p P0). intros H. injection H as <-.
  now apply Qfloor_nonneg.
Qed.

(** Without overlap the stride is the window size. *)
Lemma skip_of_no_overlap (m : Z) : 0 < m < 2 ^ 53 -> skip_of m (Finite 0) = Ok m.
Proof.
  intros [M0 M1]. unfold skip_of. rewrite float_of_int_exact by lia. cbn [bind].
  change (float_sub (Finite 1) (Finite 0)) with (round64 (1 - 0)).
  rewrite (round64_comp (1 - 0) (inject_Z 1)) by reflexivity.
  rewrite round64_int by (split; [lia | reflexivity]). cbn [float_mul].
  rewrite (round64_comp (inject_Z m * inject_Z 1) (inject_Z m)) by ring.
  rewrite round64_int by lia.
  rewrite int_of_float_nonneg
    by (change 0%Q with (inject_Z 0); rewrite <- Zle_Qle; lia).
  now rewrite Qfloor_Z.
Qed.

(** With an overlap of 1.0 the stride is 0 whenever the window size is
    in the range of the floats. *)
Lemma skip_of_full_overlap (m : Z) :
  skip_of m (Finite 1) = Ok 0
  \/ skip_of m (Finite 1) = Raise (OverflowError "int too large to convert to float").
Proof.
  unfold skip_of, float_of_int.
  destruct (round64 (inject_Z m)) as [f| | |]; [left | now right | now right | now right].
  cbn [bind]. change (float_sub (Finite 1) (Finite 1)) with (Finite 0).
  now rewrite float_mul_zero_r.
Qed.

(** C8. When the stride the code computes,
    [int(window_size * (1 - overlap_fraction))] in binary64, is 0, the
    call fails: [range] refuses a step of zero, so the function neither
    loops nor returns a list.  With an overlap of 1.0 this is the case
    for every window size in the range of the floats, and a larger
    window size fails earlier, in the product. *)
Theorem split_text_zero_stride_fails (text : string) (segment_length : pyval) :
  is_positive_int segment_length ->
  (forall q, (0 <= q <= 1)%Q ->
     skip_of (int_value segment_length) (Finite q) = Ok 0 ->
     split_text (PyStr text) segment_length (PyFloat (Finite q))
     = Raise (ValueError "range() arg 3 must not be zero"))
  /\ (split_text (PyStr text) segment_length (PyFloat (Finite 1))
      = Raise (ValueError "range() arg 3 must not be zero")
      \/ split_text (PyStr text) segment_length (PyFloat (Finite 1))
         = Raise (OverflowError "int too large to convert to float"))
  /\ (int_value segment_length < 2 ^ 53 ->
      split_text (PyStr text) segment_length (PyFloat (Finite 1))
      = Raise (ValueError "range() arg 3 must not be zero")).
Proof.
  intros Hs. split; [|split].
  - intros q Hq Hskip.
    rewrite (split_text_finite text segment_length q Hs Hq), Hskip. reflexivity.
  - assert (H1 : (0 <= 1 <= 1)%Q) by (split; vm_compute; discriminate).
    rewrite !(split_text_finite text segment_length 1 Hs H1).
    destruct (skip_of_full_overlap (int_value segment_length)) as [-> | ->];
      [left | right]; reflexivity.
  - intros Hb. assert (H1 : (0 <= 1 <= 1)%Q) by (split; vm_compute; discriminate).
    rewrite (split_text_finite text segment_length 1 Hs H1).
    destruct Hs as [_ Hp].
    destruct (skip_of_bounds (int_value segment_length) 1 (conj Hp Hb) H1)
      as (s & E & _).
    destruct (skip_of_full_overlap (int_value segment_length)) as [E0|E0];
      rewrite E0 in *; [reflexivity | discriminate E].
Qed.

Lemma split_text_zero_stride_fails_witness :
  split_text (PyStr "to be or not to be") (PyInt 1)
             (PyFloat (Finite (9007199254740991 # 9007199254740992)))
  = Raise (ValueError "range() arg 3 must not be zero").
Proof.
  apply (proj1 (split_text_zero_stride_fails "to be or not to be" (PyInt 1)
                  ltac:(split; reflexivity))).
  - split; vm_compute; discriminate.
  - vm_compute. reflexivity.
Defined.

Lemma slice_window {A : Type} (l : list A) (i n : nat) :
  slice l (Z.of_nat i) (Z.of_nat i + Z.of_nat n) = firstn n (skipn i l).
Proof.
  unfold slice, slice_index.
  replace (Z.of_nat i <? 0) with false by (symmetry; apply Z.ltb_ge; lia).
  replace (Z.of_nat i + Z.of_nat n <? 0) with false by (symmetry; apply Z.ltb_ge; lia).
  rewrite Nat2Z.id, <- Nat2Z.inj_add, Nat2Z.id.
  destruct (Nat.le_ge_cases i (List.length l)) as [Hi|Hi].
  - rewrite (Nat.min_l i) by assumption.
    destruct (Nat.le_ge_cases (i + n) (List.length l)) as [Hn|Hn].
    + rewrite Nat.min_l by assumption. f_equal. lia.
    + rewrite Nat.min_r by assumption.
      rewrite !firstn_all2 by (rewrite length_skipn; lia). reflexivity.
  - rewrite !Nat.min_r by lia. rewrite Nat.sub_diag.
    rewrite (skipn_all2 (n:=i)) by assumption. now rewrite firstn_nil.
Qed.

Lemma range_from_zero (n s : nat) :
  (1 <= s)%nat ->
  range 0 (Z.of_nat n) (Z.of_nat s)
  = Ok (map (fun k => Z.of_nat (k * s)) (seq 0 (n_windows s n))).
Proof.
  intros Hs. unfold range, n_windows.
  replace (Z.of_nat s =? 0) with false by (symmetry; apply Z.eqb_neq; lia).
  replace (0 <? Z.of_nat s) with true by (symmetry; apply Z.ltb_lt; lia).
  f_equal.
  replace (Z.of_nat n - 0 + Z.of_nat s - 1) with (Z.of_nat (n + s - 1)) by lia.
  rewrite <- Nat2Z.inj_div, Nat2Z.id.
  apply map_ext. intros k. lia.
Qed.

(** The chunks of a valid call, stride position by stride position. *)
Lemma split_text_chunks (text : string) (segment_length : pyval) (q : Q) (s : nat) :
  is_positive_int segment_length ->
  (0 <= q <= 1)%Q ->
  skip_of (int_value segment_length) (Finite q) = Ok (Z.of_nat s) ->
  (1 <= s)%nat ->
  split_text (PyStr text) segment_length (PyFloat (Finite q))
  = Ok (map (fun k => join " " (window (window_size segment_length) s (split text) k))
            (seq 0 (n_windows s (List.length (split text))))).
Proof.
  intros Hs Hq Hskip Hst.
  rewrite (split_text_finite text segment_length q Hs Hq), Hskip. cbn [bind].
  destruct Hs as [_ Hm].
  rewrite range_from_zero by assumption. cbn [bind]. f_equal.
  rewrite map_map. apply map_ext. intros k. f_equal. unfold window_size.
  set (m := int_value segment_length) in *.
  rewrite <- (Z2Nat.id m) at 1 by lia.
  apply (slice_window (split text) (k * s) (Z.to_nat m)).
Qed.

(** C6. On a text of 100 words, with a window of 40 words and an overlap
    of one half, the segmenter returns 5 = ceil(100 / 20) chunks; chunk
    [k] is made of the words [20 k, 20 k + 40) joined by single spaces,
    and splitting it gives these words back: 40 words for the first four
    chunks, the last 20 words for the fifth. *)
Theorem split_text_covers_hundred_words (text : string) :
  List.length (split text) = 100%nat ->
  split_text (PyStr text) (PyInt 40) (PyFloat (Finite (1#2)))
  = Ok (map (fun k => String.concat " " (firstn 40 (skipn (20 * k) (split text))))
            (seq 0 5))
  /\ map split (map (fun k => String.concat " " (firstn 40 (skipn (20 * k) (split text))))
                    (seq 0 5))
     = map (fun k => firstn 40 (skipn (20 * k) (split text))) (seq 0 5)
  /\ (forall k, (k < 4)%nat ->
        List.length (firstn 40 (skipn (20 * k) (split text))) = 40%nat)
  /\ firstn 40 (skipn (20 * 4) (split text)) = skipn 80 (split text)
  /\ List.length (skipn 80 (split text)) = 20%nat.
Proof.
  intros H. split; [|split; [|split; [|split]]].
  - assert (Hs : is_positive_int (PyInt 40)) by (split; reflexivity).
    assert (Hq : (0 <= 1#2 <= 1)%Q) by (split; vm_compute; discriminate).
    rewrite (split_text_chunks text (PyInt 40) (1#2) 20 Hs Hq);
      [|vm_compute; reflexivity | lia].
    rewrite H. change (n_windows 20 100) with 5%nat.
    apply f_equal. apply map_ext. intros k.
    unfold join, window. change (window_size (PyInt 40)) with 40%nat.
    now rewrite (Nat.mul_comm k 20).
  - rewrite map_map. apply map_ext. intros k.
    apply split_join. rewrite (Nat.mul_comm 20 k).
    apply (Forall_window is_word 40 20 (split text) k), split_words.
  - intros k Hk. rewrite length_firstn, length_skipn, H. lia.
  - apply firstn_all2. rewrite length_skipn, H. simpl. lia.
  - rewrite length_skipn, H. reflexivity.
Qed.

Lemma split_text_covers_hundred_words_witness :
  split_text (PyStr (words_text 100)) (PyInt 40) (PyFloat (Finite (1#2)))
  = Ok (map (fun k => String.concat " " (firstn 40 (skipn (20 * k) (split (words_text 100)))))
            (seq 0 5)).
Proof.
  apply (split_text_covers_hundred_words (words_text 100)).
  vm_compute. reflexivity.
Defined.

End Segmenter.

(** ** The lowpass filter *)

Section Lowpass.

Local Open Scope Z_scope.

(** The filter index is computed in binary64.  With 17 bins and the
    float nearest to 8/17 as cutoff, the product rounds to 8.0 and the
    index is 8, where the exact product lies below 8. *)
Example cutoff_index_rounds_up :
  cutoff_index (Finite (4238682002231055 # 9007199254740992)) 17 = Ok 8
  /\ Qfloor ((4238682002231055 # 9007199254740992) * 17) = 7.
Proof. split; vm_compute; reflexivity. Qed.

(** A cutoff whose product with the number of bins leaves the range of
    the floats makes [int()] fail. *)
Example cutoff_index_overflow :
  cutoff_index (Finite (inject_Z (10 ^ 308))) 17
  = Raise (OverflowError "cannot convert float infinity to integer").
Proof. vm_compute. reflexivity. Qed.

Lemma nat_nonneg (n : nat) : (0 <= inject_Z (Z.of_nat n))%Q.
Proof. change 0%Q with (inject_Z 0). rewrite <- Zle_Qle. lia. Qed.

Lemma cutoff_index_zero (n : nat) : cutoff_index (Finite 0) n = Ok 0.
Proof. unfold cutoff_index, float_of_size. now rewrite float_mul_zero_l. Qed.

(** For cutoffs that are not negative the index is not negative and
    grows with the cutoff. *)
Lemma cutoff_index_mono (c1 c2 : Q) (B : nat) :
  (0 <= c1)%Q -> (c1 <= c2)%Q ->
  Z.of_nat B < 2 ^ 53 ->
  (c2 * inject_Z (Z.of_nat B) <= max_float)%Q ->
  exists a1 a2,
    cutoff_index (Finite c1) B = Ok a1 /\ cutoff_index (Finite c2) B = Ok a2
    /\ 0 <= a1 <= a2.
Proof.
  intros H1 H12 HB Hmax. unfold cutoff_index.
  rewrite (float_of_size_exact B HB). cbn [float_mul].
  pose proof (nat_nonneg B) as B0. pose proof max_float_below as T.
  destruct (round64_mono (c1 * inject_Z (Z.of_nat B)) (c2 * inject_Z (Z.of_nat B)))
    as (p1 & p2 & -> & -> & P0 & P12); [nra | nra | lra |].
  rewrite !int_of_float_nonneg by lra.
  do 2 eexists. split; [reflexivity|]. split; [reflexivity|]. split.
  - now apply Qfloor_nonneg.
  - now apply Qfloor_resp_le.
Qed.

Lemma cutoff_index_nonneg (c : Q) (B : nat) :
  (0 <= c)%Q ->
  Z.of_nat B < 2 ^ 53 ->
  (c * inject_Z (Z.of_nat B) <= max_float)%Q ->
  exists a, cutoff_index (Finite c) B = Ok a /\ 0 <= a.
Proof.
  intros H0 HB Hmax.
  destruct (cutoff_index_mono c c B H0 (Qle_refl c) HB Hmax)
    as (a1 & a2 & _ & E & A0 & A12).
  exists a2. split; [assumption | lia].
Qed.

(** A product with a cutoff of [0, 1] stays in the range of the floats. *)
Lemma unit_cutoff_in_range (c : Q) (B : nat) :
  (0 <= c <= 1)%Q -> Z.of_nat B < 2 ^ 53 ->
  (c * inject_Z (Z.of_nat B) <= max_float)%Q.
Proof.
  intros [C0 C1] HB. pose proof (nat_nonneg B) as B0.
  assert (HB' : (inject_Z (Z.of_nat B) < inject_Z (2 ^ 53))%Q) by (now rewrite <- Zlt_Qlt).
  assert (M : (inject_Z (2 ^ 53) < max_float)%Q)
    by (unfold max_float; rewrite <- Zlt_Qlt; reflexivity).
  nra.
Qed.


(** For a cutoff of at least 1 the index is at least the number of bins. *)
Lemma cutoff_index_ge (c : Q) (B : nat) :
  (1 <= c)%Q ->
  Z.of_nat B < 2 ^ 53 ->
  (c * inject_Z (Z.of_nat B) <= max_float)%Q ->
  exists a, cutoff_index (Finite c) B = Ok a /\ Z.of_nat B <= a.
Proof.
  intros C1 HB Hmax. unfold cutoff_index.
  rewrite (float_of_size_exact B HB). cbn [float_mul].
  pose proof (nat_nonneg B) as B0. pose proof max_float_below as T.
  destruct (round64_ge (c * inject_Z (Z.of_nat B)) (Z.of_nat B))
    as (p & -> & P); [lia | nra | lra |].
  rewrite int_of_float_nonneg by lra.
  eexists. split; [reflexivity|].
  rewrite <- (Qfloor_Z (Z.of_nat B)). now apply Qfloor_resp_le.
Qed.

(** For a cutoff that is not positive the index is not positive. *)
Lemma cutoff_index_nonpos (c : Q) (B : nat) :
  (c <= 0)%Q ->
  Z.of_nat B < 2 ^ 53 ->
  (- max_float <= c * inject_Z (Z.of_nat B))%Q ->
  exists a, cutoff_index (Finite c) B = Ok a /\ a <= 0.
Proof.
  intros C0 HB Hmax. unfold cutoff_index.
  rewrite (float_of_size_exact B HB). cbn [float_mul].
  pose proof (nat_nonneg B) as B0. pose proof max_float_below as T.
  destruct (round64_nonpos (c * inject_Z (Z.of_nat B))) as (p & -> & P); [nra | lra |].
  rewrite int_of_float_nonpos by assumption.
  eexists. split; [reflexivity|].
  change 0 with (Qceiling 0). now apply Qceiling_resp_le.
Qed.

(** Overwriting a list from position [a] on. *)
Lemma nth_error_overwrite {A : Type} (f : A -> A) : forall (a : nat) (l : list A) (k : nat),
  nth_error (firstn a l ++ map f (skipn a l)) k
  = if (k <? a)%nat then nth_error l k else option_map f (nth_error l k).
Proof.
  induction a as [|a IH]; intros l k.
  - cbn [firstn skipn app]. apply nth_error_map.
  - destruct l as [|x l].
    + destruct k; cbn [firstn skipn app map nth_error option_map];
        now destruct (_ <? _)%nat.
    + destruct k as [|k]; [reflexivity|]. exact (IH l k).
Qed.

Lemma entry_zero_from a fft n k t :
  entry (zero_from (map (fun _ => c0)) a fft) n k t
  = if (k <? a)%nat then entry fft n k t
    else option_map (fun _ => c0) (entry fft n k t).
Proof.
  unfold entry, zero_from. rewrite nth_error_map.
  destruct (nth_error fft n) as [slab|]; cbn [option_map]; [|now destruct (k <? a)%nat].
  rewrite nth_error_overwrite.
  destruct (k <? a)%nat; [reflexivity|].
  destruct (nth_error slab k) as [row|]; cbn [option_map]; [|reflexivity].
  apply nth_error_map.
Qed.

Lemma entry_bin_bound fft B n k t x :
  Forall (fun slab => List.length slab = B) fft ->
  entry fft n k t = Some x -> (k < B)%nat.
Proof.
  intros HB H. unfold entry in H.
  destruct (nth_error fft n) as [slab|] eqn:En; [|discriminate].
  destruct (nth_error slab k) as [row|] eqn:Ek; [|discriminate].
  rewrite Forall_forall in HB. rewrite <- (HB slab (nth_error_In _ _ En)).
  apply nth_error_Some. congruence.
Qed.

Lemma shape1_rect {Cell : Type} (slab : list Cell) (fft : list (list Cell)) (B : nat) :
  Forall (fun slab => List.length slab = B) (slab :: fft) -> shape1 (slab :: fft) = B.
Proof. intros H. unfold shape1. cbn [hd]. now inversion H. Qed.

(** The first axis-1 length of a rectangular array is the common one, or
    0 when the array has no chunk. *)
Lemma shape1_cases {Cell : Type} (fft : list (list Cell)) (B : nat) :
  Forall (fun slab => List.length slab = B) fft ->
  fft = [] \/ shape1 fft = B.
Proof.
  intros H. destruct fft as [|slab fft]; [now left | right].
  now apply shape1_rect.
Qed.



(** With a cutoff of zero the filter zeroes the whole array. *)
Lemma lowpass_filter_zero_cutoff fft :
  lowpass_filter (Finite 0) fft = Ok (zeros_like fft).
Proof.
  unfold lowpass_filter, lowpass_filter_on. rewrite cutoff_index_zero.
  cbn [bind]. unfold slice_index. cbn [Z.ltb Z.compare Z.to_nat Nat.min].
  unfold zero_from, zeros_like. f_equal.
Qed.

End Lowpass.

(** ** The filter on the object store *)

Section Objects.

Import Obj.
Local Open Scope nat_scope.

Lemma deref_alloc_new a h : deref (h ++ [a]) (List.length h) = a.
Proof. unfold deref. apply nth_middle. Qed.

Lemma deref_alloc_old a h r : r < List.length h -> deref (h ++ [a]) r = deref h r.
Proof. intros Hr. unfold deref. now apply app_nth1. Qed.

Lemma update_alloc_new a b : forall h, update (h ++ [a]) (List.length h) b = h ++ [b].
Proof.
  induction h as [|x h IH]; [reflexivity|].
  cbn [app List.length update]. now rewrite IH.
Qed.

(** C9. The filter does not mutate its argument: whatever the call does
    (return or raise), every array that existed before it, the argument
    included, holds the same values afterwards; the array returned is a
    new object holding the filtered values. *)
Theorem lowpass_filter_leaves_argument_unchanged
  (h : heap) (fft : ref) (cutoff : pyfloat) :
  fft < List.length h ->
  let '(r, h') := lowpass_filter_obj fft cutoff h in
  deref h' fft = deref h fft
  /\ (forall r0, r0 < List.length h -> deref h' r0 = deref h r0)
  /\ match r with
     | Ok out => out <> fft
                 /\ lowpass_filter cutoff (deref h fft) = Ok (deref h' out)
     | Raise e => lowpass_filter cutoff (deref h fft) = Raise e
     end.
Proof.
  intros Hfft. unfold lowpass_filter_obj, ndarray_copy, alloc.
  rewrite deref_alloc_new.
  unfold lowpass_filter, lowpass_filter_on.
  destruct (cutoff_index _ _) as [a|e]; cbn [bind].
  - unfold ndarray_zero_from. rewrite deref_alloc_new, update_alloc_new.
    split; [now apply deref_alloc_old|].
    split; [intros; now apply deref_alloc_old|].
    split; [lia|]. now rewrite deref_alloc_new.
  - split; [now apply deref_alloc_old|].
    split; [intros; now apply deref_alloc_old | reflexivity].
Qed.

Lemma lowpass_filter_leaves_argument_unchanged_witness :
  let '(r, h') := lowpass_filter_obj 0 default_cutoff [get_fft [qs [1; 2]%Z]] in
  deref h' 0 = deref [get_fft [qs [1; 2]%Z]] 0
  /\ (forall r0, r0 < 1 -> deref h' r0 = deref [get_fft [qs [1; 2]%Z]] r0)
  /\ match r with
     | Ok out => out <> 0
                 /\ lowpass_filter default_cutoff (deref [get_fft [qs [1; 2]%Z]] 0)
                    = Ok (deref h' out)
     | Raise e => lowpass_filter default_cutoff (deref [get_fft [qs [1; 2]%Z]] 0) = Raise e
     end.
Proof.
  apply (lowpass_filter_leaves_argument_unchanged [get_fft [qs [1; 2]%Z]] 0 default_cutoff).
  simpl. lia.
Defined.

End Objects.

(** ** The transform of an embedding matrix *)

Section Matrix.

Import CycFacts.
Local Open Scope nat_scope.

Lemma map_const {A B : Type} (c : B) (l : list A) :
  map (fun _ => c) l = repeat c (List.length l).
Proof. induction l; simpl; congruence. Qed.

Lemma entry_get_fft X n k t :
  entry (get_fft X) n k t
  = match nth_error X n with
    | Some chunk =>
        match nth_error (stft1 chunk) k with
        | Some row => nth_error row t
        | None => None
        end
    | None => None
    end.
Proof.
  unfold entry, get_fft. rewrite nth_error_map.
  now destruct (nth_error X n).
Qed.

Lemma nth_error_map_seq {A : Type} (G : nat -> A) n k :
  k < n -> nth_error (map G (seq 0 n)) k = Some (G k).
Proof.
  intros H. rewrite nth_error_map.
  rewrite (nth_error_nth' (seq 0 n) 0) by (now rewrite length_seq).
  now rewrite seq_nth.
Qed.

(** The transform of a matrix is the transform of each of its rows: one
    slab of 17 bins by [D + 1] frames per chunk. *)
Lemma get_fft_slab X n chunk :
  nth_error X n = Some chunk ->
  nth_error (get_fft X) n = Some (stft1 chunk)
  /\ List.length (stft1 chunk) = n_bins
  /\ Forall (fun row => List.length row = List.length chunk + 1) (stft1 chunk).
Proof.
  intros H. split; [|split].
  - unfold get_fft. now rewrite nth_error_map, H.
  - apply length_stft1.
  - rewrite stft1_unfold. apply Forall_forall. intros row Hrow.
    apply in_map_iff in Hrow as (k & <- & _).
    now rewrite length_map, length_seq.
Qed.

Lemma entry_get_fft_formula X n k t chunk :
  nth_error X n = Some chunk ->
  k < n_bins ->
  t <= List.length chunk ->
  entry (get_fft X) n k t
  = Some (rfft_bin (map (fun p => (win p * nth (t + p) (center_pad chunk) (Q2Qc 0))%Qc)
                        (seq 0 n_fft)) k).
Proof.
  intros Hn Hk Ht. rewrite entry_get_fft, Hn, stft1_unfold.
  rewrite (nth_error_map_seq
             (fun k => map (fun t => rfft_bin (apply_window (frame (center_pad chunk) t)) k)
                           (seq 0 (List.length chunk + 1))) n_bins k Hk).
  rewrite (nth_error_map_seq
             (fun t => rfft_bin (apply_window (frame (center_pad chunk) t)) k)) by lia.
  now rewrite apply_window_frame.
Qed.

(** C1, as the code has it. The forward transform runs along the
    dimension axis, one chunk at a time: the array has one slab of 17
    frequency bins by [D + 1] frames per chunk, and its entry (chunk [n],
    bin [k], frame [t]) is bin [k] of the 32-point transform of the
    windowed stretch of chunk [n]'s own vector around dimension [t]. *)
Theorem get_fft_transforms_each_chunk_along_dimensions
  (X : list (list Qc)) (n : nat) (chunk : list Qc) :
  nth_error X n = Some chunk ->
  nth_error (get_fft X) n = Some (stft1 chunk)
  /\ List.length (stft1 chunk) = n_bins
  /\ Forall (fun row => List.length row = List.length chunk + 1) (stft1 chunk)
  /\ forall k t, k < n_bins -> t <= List.length chunk ->
       entry (get_fft X) n k t
       = Some (rfft_bin (map (fun p => (win p * nth (t + p) (center_pad chunk) (Q2Qc 0))%Qc)
                             (seq 0 n_fft)) k).
Proof.
  intros H. destruct (get_fft_slab X n chunk H) as (H1 & H2 & H3).
  repeat split; try assumption.
  intros k t Hk Ht. now apply entry_get_fft_formula.
Qed.

Lemma get_fft_transforms_each_chunk_along_dimensions_witness :
  nth_error (get_fft [qs [1; 1]%Z; qs [0; 0]%Z]) 0 = Some (stft1 (qs [1; 1]%Z))
  /\ List.length (stft1 (qs [1; 1]%Z)) = n_bins
  /\ Forall (fun row => List.length row = List.length (qs [1; 1]%Z) + 1) (stft1 (qs [1; 1]%Z))
  /\ forall k t, k < n_bins -> t <= List.length (qs [1; 1]%Z) ->
       entry (get_fft [qs [1; 1]%Z; qs [0; 0]%Z]) 0 k t
       = Some (rfft_bin (map (fun p => (win p * nth (t + p) (center_pad (qs [1; 1]%Z)) (Q2Qc 0))%Qc)
                             (seq 0 n_fft)) k).
Proof.
  apply (get_fft_transforms_each_chunk_along_dimensions [qs [1; 1]%Z; qs [0; 0]%Z] 0 (qs [1; 1]%Z)).
  reflexivity.
Defined.

(** C1, as the specification states it, fails: on the matrix with chunks
    (1, 1) and (0, 0) the array [get_fft] computes is not the array of the
    per-dimension transforms along the chunk axis.  Bin 0 of frame 1 of
    the first slab is 3/2 in the code (from the chunk (1, 1)) and 1/2 in
    the per-dimension reading (from dimension 0, the signal (1, 0)). *)
Lemma get_fft_is_not_per_dimension :
  option_map (Cyc.coords 4) (entry (get_fft [qs [1; 1]%Z; qs [0; 0]%Z]) 0 0 1)
  = Some [3#2; 0; 0; 0; 0; 0; 0; 0; 0; 0; 0; 0; 0; 0; 0; 0]%Q
  /\ option_map (Cyc.coords 4) (entry (get_fft_per_dimension [qs [1; 1]%Z; qs [0; 0]%Z]) 0 0 1)
     = Some [1#2; 0; 0; 0; 0; 0; 0; 0; 0; 0; 0; 0; 0; 0; 0; 0]%Q
  /\ get_fft [qs [1; 1]%Z; qs [0; 0]%Z] <> get_fft_per_dimension [qs [1; 1]%Z; qs [0; 0]%Z].
Proof.
  split; [vm_compute; reflexivity|]. split; [vm_compute; reflexivity|].
  intros H.
  apply (f_equal (fun a => option_map (Cyc.coords 4) (entry a 0 0 1))) in H.
  vm_compute in H. discriminate H.
Qed.

(** The inverse transform undoes the transform of every matrix. *)
(** In exact arithmetic the inverse transform undoes the transform.
    This says nothing of the error of the complex128 computation, which
    grows with the size of the entries. *)
Lemma fft_to_embedding_get_fft X :
  fft_to_embedding (get_fft X) = map (map of_Qc) X.
Proof.
  unfold fft_to_embedding, get_fft. rewrite map_map.
  apply map_ext. intros y. apply istft1_stft1.
Qed.

End Matrix.

(** ** Filtering everything, and averaging identical chunks *)

Section Aggregate.

Import CycFacts.
Local Open Scope nat_scope.

Lemma nth_repeat_c0 n j : nth j (repeat c0 n) c0 = c0.
Proof. apply nth_repeat. Qed.

Lemma all_zero (l : list complex) :
  forallb (fun x => Cyc.eqb 4 x c0) l = true -> l = repeat c0 (List.length l).
Proof.
  induction l as [|x l IH]; [reflexivity|].
  cbn [forallb repeat List.length]. intros H. apply andb_prop in H as [Hx Hl].
  now rewrite <- (IH Hl), (eqb_eq 4 x c0 Hx).
Qed.

Lemma ifft_frame_zero : ifft_frame (repeat c0 n_bins) = repeat c0 n_fft.
Proof.
  assert (H : forallb (fun x => Cyc.eqb 4 x c0) (ifft_frame (repeat c0 n_bins)) = true)
    by (vm_compute; reflexivity).
  assert (L : List.length (ifft_frame (repeat c0 n_bins)) = n_fft)
    by (vm_compute; reflexivity).
  rewrite (all_zero _ H). now rewrite L.
Qed.

Lemma overlap_add_zero : forall n j,
  nth j (overlap_add (repeat (repeat c0 n_fft) n)) c0 = c0.
Proof.
  induction n as [|n IH]; intros j.
  - apply nth_nil.
  - cbn [repeat]. rewrite overlap_add_cons, nth_vadd, nth_repeat_c0, cadd_0_l.
    destruct j; [reflexivity | apply IH].
Qed.

(** The inverse transform of the all-zero array of the shape of a
    transform is the zero signal. *)
Lemma istft1_zero y :
  istft1 (map (map (fun _ => c0)) (stft1 y)) = map (fun _ => c0) y.
Proof.
  assert (Hz : map (map (fun _ : complex => c0)) (stft1 y)
               = repeat (repeat c0 (List.length y + 1)) n_bins).
  { rewrite stft1_unfold, map_map.
    rewrite (map_ext _ (fun _ => repeat c0 (List.length y + 1)))
      by (intros k; now rewrite map_map, map_const, length_seq).
    now rewrite map_const, length_seq. }
  rewrite Hz. unfold istft1. cbv zeta.
  change (hd [] (repeat (repeat c0 (List.length y + 1)) n_bins))
    with (repeat c0 (List.length y + 1)).
  rewrite repeat_length. replace (List.length y + 1 - 1) with (List.length y) by lia.
  transitivity (map (fun _ : nat => c0) (seq 0 (List.length y)));
    [|now rewrite !map_const, length_seq].
  apply map_ext. intros i.
  assert (Hc : forall t, column (repeat (repeat c0 (List.length y + 1)) n_bins) t
                         = repeat c0 n_bins).
  { intros t. unfold column. rewrite map_repeat. now rewrite nth_repeat_c0. }
  rewrite (map_ext _ (fun _ => repeat c0 n_fft))
    by (intros t; rewrite Hc; apply ifft_frame_zero).
  rewrite map_const, length_seq, overlap_add_zero.
  destruct (Qc_gtb _ _); [apply cscale_c0 | reflexivity].
Qed.

Lemma fft_to_embedding_zero X :
  fft_to_embedding (zeros_like (get_fft X)) = map (map (fun _ => c0)) X.
Proof.
  unfold fft_to_embedding, zeros_like, get_fft. rewrite !map_map.
  apply map_ext. intros y. apply istft1_zero.
Qed.

(** C5, as the code has it. A cutoff of 0.0 zeroes every frequency bin,
    the lowest one included; the sequence reconstructed from the filtered
    transform of a matrix is zero everywhere. *)
Theorem lowpass_filter_cutoff_zero_clears_all_bins :
  (forall fft, lowpass_filter (Finite 0) fft = Ok (zeros_like fft))
  /\ (forall X, fft_to_embedding (zeros_like (get_fft X)) = map (map (fun _ => c0)) X).
Proof. split; [apply lowpass_filter_zero_cutoff | apply fft_to_embedding_zero]. Qed.

(** C5, as the specification states it, fails: on the transform of the
    one-chunk matrix (1) the filter with cutoff 0.0 does not retain the
    lowest bin. *)
Lemma lowpass_filter_cutoff_zero_drops_dc :
  exists out,
    lowpass_filter (Finite 0) (get_fft [qs [1]%Z]) = Ok out
    /\ ~ retains_dc (get_fft [qs [1]%Z]) out.
Proof.
  exists (zeros_like (get_fft [qs [1]%Z])). split.
  - apply lowpass_filter_zero_cutoff.
  - intros H. specialize (H 0 0).
    apply (f_equal (option_map (Cyc.coords 4))) in H.
    vm_compute in H. discriminate H.
Qed.

Lemma natQ_S n : natQ (S n) = (natQ n + Q2Qc 1)%Qc.
Proof.
  unfold natQ. apply Qc_is_canon. cbn [this Qcplus Q2Qc].
  rewrite !Qred_correct, Nat2Z.inj_succ. unfold Z.succ.
  now rewrite inject_Z_plus.
Qed.

Lemma natQ_S_nonzero n : natQ (S n) <> Q2Qc 0.
Proof.
  unfold natQ. intros H. apply Q2Qc_eq_iff in H.
  unfold Qeq in H. cbn [Qnum Qden inject_Z] in H. lia.
Qed.

Lemma vadd_scaled a r :
  vadd (map (cscale a) r) r = map (cscale (a + Q2Qc 1)%Qc) r.
Proof.
  induction r as [|x r IH]; [reflexivity|].
  cbn [map vadd]. rewrite IH. f_equal.
  unfold cadd, cscale. now rewrite scale_plus, scale_one.
Qed.

Lemma sum_of_copies r : forall n a,
  fold_left vadd (repeat r n) (map (cscale a) r) = map (cscale (a + natQ n)%Qc) r.
Proof.
  induction n as [|n IH]; intros a.
  - cbn [repeat fold_left]. apply map_ext. intros x. f_equal.
    change (natQ 0) with (Q2Qc 0). ring.
  - cbn [repeat fold_left]. rewrite vadd_scaled, IH, natQ_S.
    apply map_ext. intros x. f_equal. ring.
Qed.

(** The mean of [n + 1] copies of a vector is the vector. *)
Lemma mean_of_copies r n : mean_axis0 (repeat r (S n)) = Some r.
Proof.
  unfold mean_axis0. cbn [repeat]. f_equal. cbn [vsum].
  change (List.length (r :: repeat r n)) with (S (List.length (repeat r n))).
  rewrite repeat_length.
  rewrite <- (map_id r) at 2.
  rewrite <- (map_ext (cscale (Q2Qc 1)) (fun x => x)) at 1 by (apply scale_one).
  rewrite sum_of_copies, map_map.
  transitivity (map (fun x : complex => x) r); [|apply map_id].
  apply map_ext. intros x. rewrite cscale_cscale.
  replace (/ natQ (S n) * (Q2Qc 1 + natQ n))%Qc with (Q2Qc 1).
  - apply scale_one.
  - pose proof (natQ_S_nonzero n) as Hn. rewrite natQ_S in *. field. exact Hn.
Qed.


Lemma shape1_get_fft X : shape1 (get_fft X) = match X with [] => 0 | _ => n_bins end.
Proof. destruct X as [|v X]; [reflexivity | apply length_stft1]. Qed.

(** Filtering and transforming back, chunk by chunk. *)
Lemma fft_to_embedding_zero_from a X :
  fft_to_embedding (zero_from (map (fun _ => c0)) a (get_fft X))
  = map (filtered_chunk a) X.
Proof. unfold fft_to_embedding, zero_from, get_fft. now rewrite !map_map. Qed.

(** The filtered pipeline on a matrix with at least one chunk, when the
    filter index can be computed. *)
Lemma aggregate_filtered (c : Q) X :
  X <> [] ->
  (exists a, cutoff_index (Finite c) n_bins = Ok a) ->
  aggregate (Finite c) true X = Ok (mean_axis0 (map (filtered_chunk (cutoff_bin c)) X)).
Proof.
  intros HX [a Ea]. unfold aggregate, lowpass_filter, lowpass_filter_on. cbv zeta.
  rewrite shape1_get_fft. destruct X as [|v X]; [contradiction|].
  unfold cutoff_bin. rewrite Ea. cbn [bind].
  now rewrite fft_to_embedding_zero_from.
Qed.

Lemma n_bins_small : (Z.of_nat n_bins < 2 ^ 53)%Z.
Proof. reflexivity. Qed.




(** The three-chunk document with embeddings (1, 0), (0, 1), (1, 1):
    without the filter the aggregate is, in exact arithmetic, the plain
    mean (2/3, 2/3). *)
Example aggregate_three_chunks :
  result_coords (aggregate default_cutoff false [qs [1; 0]%Z; qs [0; 1]%Z; qs [1; 1]%Z])
  = [[2#3; 0; 0; 0; 0; 0; 0; 0; 0; 0; 0; 0; 0; 0; 0; 0];
     [2#3; 0; 0; 0; 0; 0; 0; 0; 0; 0; 0; 0; 0; 0; 0; 0]]%Q.
Proof. vm_compute. reflexivity. Qed.

End Aggregate.

(** * Further properties of the code *)

(** ** The segmenter on valid arguments *)

Section SegmenterResults.

Local Open Scope nat_scope.
Local Open Scope string_scope.

(** A call that returns had valid arguments and a stride of at least 1. *)
Lemma split_text_ok_inv text segment_length overlap_percent chunks :
  split_text text segment_length overlap_percent = Ok chunks ->
  (exists t, text = PyStr t)
  /\ is_positive_int segment_length
  /\ exists q s, overlap_percent = PyFloat (Finite q)
                 /\ (0 <= q <= 1)%Q
                 /\ skip_of (int_value segment_length) (Finite q) = Ok (Z.of_nat s)
                 /\ 1 <= s.
Proof.
  intros H.
  destruct (isinstance_str text) eqn:Ht.
  2:{ rewrite (split_text_not_str _ _ _ Ht) in H. discriminate. }
  assert (Dec : is_positive_int segment_length \/ ~ is_positive_int segment_length).
  { unfold is_positive_int. destruct (isinstance_int segment_length).
    - destruct (Z.lt_ge_cases 0 (int_value segment_length)); [left; auto | right; lia].
    - right. intros [E _]. discriminate. }
  destruct Dec as [Hs|Hs].
  2:{ rewrite (split_text_bad_length _ _ _ Ht Hs) in H. discriminate. }
  destruct text as [t| | | |]; try discriminate Ht.
  split; [now exists t|]. split; [assumption|].
  pose proof H as H0.
  rewrite (split_text_valid_head (PyStr t) segment_length eq_refl Hs) in H.
  destruct overlap_percent as [?|?|?|f|]; try discriminate H.
  destruct f as [q| | |]; try discriminate H.
  2:{ exfalso. cbn [isinstance_float float_value float_lt negb orb] in H.
      cbv zeta in H. unfold skip_of in H.
      destruct (float_of_int (int_value segment_length)) as [f|e] eqn:Ef;
        [|discriminate H].
      destruct (float_of_int_finite _ _ Ef) as (x & ->). discriminate H. }
  cbn [isinstance_float float_value float_lt negb orb] in H.
  destruct (Qle_bool 0 q) eqn:E0; [|discriminate H].
  destruct (Qle_bool q 1) eqn:E1; [|discriminate H].
  apply Qle_bool_iff in E0, E1.
  rewrite (split_text_finite t segment_length q Hs (conj E0 E1)) in H0.
  destruct (skip_of (int_value segment_length) (Finite q)) as [z|e] eqn:Es;
    [|discriminate H0].
  destruct Hs as [_ Hm].
  pose proof (skip_of_nonneg _ q z Hm (conj E0 E1) Es) as Z0.
  exists q, (Z.to_nat z). split; [reflexivity|]. split; [now split|].
  rewrite Z2Nat.id by assumption. split; [exact Es|].
  destruct (Z.eq_dec z 0) as [->|Hz]; [discriminate H0 | lia].
Qed.

Lemma chunk_not_empty m s (words : list string) k :
  Forall is_word words -> 1 <= m -> k * s < List.length words ->
  join " " (window m s words k) <> "".
Proof.
  intros Hw Hm Hk.
  pose proof (window_not_nil m s words k Hm Hk) as Hne.
  pose proof (Forall_window is_word m s words k Hw) as Hall.
  destruct (window m s words k) as [|w ws]; [contradiction|].
  apply join_not_empty. inversion Hall as [|? ? [Hw0 _] _]. exact Hw0.
Qed.

Lemma chunks_not_empty (text : string) m s :
  1 <= m -> 1 <= s ->
  Forall (fun c => c <> "")
         (map (fun k => join " " (window m s (split text) k))
              (seq 0 (n_windows s (List.length (split text))))).
Proof.
  intros Hm Hs. apply Forall_forall. intros c Hc.
  apply in_map_iff in Hc as (k & <- & Hk). apply in_seq in Hk.
  apply chunk_not_empty; [apply split_words | assumption |].
  apply n_windows_spec; lia.
Qed.

Lemma window_size_pos (segment_length : pyval) :
  is_positive_int segment_length -> 1 <= window_size segment_length.
Proof. intros [_ H]. unfold window_size. lia. Qed.

(** X1. On valid arguments, when the stride [s] the code computes is at
    least 1, the segmenter returns one chunk per stride position below
    the number of words, [ceil(words / s)] in all; chunk [k] is the words
    [[k * s, k * s + window)] joined by single spaces, at most [window]
    of them and exactly [window] when they all exist. *)
Theorem split_text_returns_windows
  (text : string) (segment_length : pyval) (q : Q) (s : nat) :
  is_positive_int segment_length ->
  (0 <= q <= 1)%Q ->
  skip_of (int_value segment_length) (Finite q) = Ok (Z.of_nat s) ->
  1 <= s ->
  exists chunks,
    split_text (PyStr text) segment_length (PyFloat (Finite q)) = Ok chunks
    /\ List.length chunks = n_windows s (List.length (split text))
    /\ (forall k, k < List.length chunks ->
          nth_error chunks k
          = Some (String.concat " " (window (window_size segment_length) s (split text) k)))
    /\ (forall k,
          List.length (window (window_size segment_length) s (split text) k)
          <= window_size segment_length)
    /\ (forall k,
          k * s + window_size segment_length <= List.length (split text) ->
          List.length (window (window_size segment_length) s (split text) k)
          = window_size segment_length).
Proof.
  intros Hs Hq Hskip Hst. eexists.
  split; [now apply (split_text_chunks text segment_length q s)|].
  rewrite length_map, length_seq. split; [reflexivity|]. split; [|split].
  - intros k Hk.
    now rewrite (nth_error_map_seq
                   (fun k => join " " (window (window_size segment_length) s (split text) k))).
  - intros k. unfold window. rewrite length_firstn. lia.
  - intros k Hk. unfold window. rewrite length_firstn, length_skipn. lia.
Qed.

Lemma split_text_returns_windows_witness :
  exists chunks,
    split_text (PyStr (words_text 20)) (PyInt 10)
               (PyFloat (Finite (3602879701896397 # 36028797018963968))) = Ok chunks
    /\ List.length chunks = n_windows 9 (List.length (split (words_text 20))).
Proof.
  destruct (split_text_returns_windows (words_text 20) (PyInt 10)
              (3602879701896397 # 36028797018963968) 9)
    as (chunks & H1 & H2 & _).
  - split; reflexivity.
  - split; vm_compute; discriminate.
  - vm_compute. reflexivity.
  - lia.
  - exists chunks. split; assumption.
Defined.

(** X2. The segmenter returns a list only when the text is a string,
    the window size a positive integer, the overlap a finite float of
    [0, 1] and the stride the code computes at least 1: in every other
    case it raises. *)
Theorem split_text_returns_only_on_valid_arguments
  (text segment_length overlap_percent : pyval) (chunks : list string) :
  split_text text segment_length overlap_percent = Ok chunks ->
  (exists t, text = PyStr t)
  /\ is_positive_int segment_length
  /\ exists q s, overlap_percent = PyFloat (Finite q)
                 /\ (0 <= q <= 1)%Q
                 /\ skip_of (int_value segment_length) (Finite q) = Ok (Z.of_nat s)
                 /\ 1 <= s.
Proof. apply split_text_ok_inv. Qed.

Lemma split_text_returns_only_on_valid_arguments_witness :
  (exists t, PyStr "a b c" = PyStr t)
  /\ is_positive_int (PyInt 1)
  /\ exists q s, PyFloat (Finite (1 # 2 ^ 60)) = PyFloat (Finite q)
                 /\ (0 <= q <= 1)%Q
                 /\ skip_of (int_value (PyInt 1)) (Finite q) = Ok (Z.of_nat s)
                 /\ 1 <= s.
Proof.
  apply (split_text_returns_only_on_valid_arguments
           (PyStr "a b c") (PyInt 1) (PyFloat (Finite (1 # 2 ^ 60)))
           ["a"; "b"; "c"]).
  vm_compute. reflexivity.
Defined.

(** X3. No chunk the segmenter returns is the empty string, so the two
    filters the cell applies to its result remove nothing. *)
Theorem split_text_chunks_are_not_empty
  (text segment_length overlap_percent : pyval) (chunks : list string) :
  split_text text segment_length overlap_percent = Ok chunks ->
  Forall (fun chunk => chunk <> "") chunks
  /\ remove_blank (remove_empty chunks) = chunks.
Proof.
  intros H.
  destruct (split_text_ok_inv _ _ _ _ H)
    as ((t & ->) & Hs & q & s & -> & Hq & Hskip & Hst).
  rewrite (split_text_chunks t segment_length q s Hs Hq Hskip Hst) in H.
  injection H as <-.
  assert (F : Forall (fun c => c <> "")
                (map (fun k => join " " (window (window_size segment_length) s (split t) k))
                     (seq 0 (n_windows s (List.length (split t))))))
    by (apply chunks_not_empty; [now apply window_size_pos | assumption]).
  split; [exact F | now apply remove_empty_id].
Qed.

Lemma split_text_chunks_are_not_empty_witness :
  Forall (fun chunk => chunk <> "") ["to be"; "be or"; "or not"; "not to"; "to be"; "be"]
  /\ remove_blank (remove_empty ["to be"; "be or"; "or not"; "not to"; "to be"; "be"])
     = ["to be"; "be or"; "or not"; "not to"; "to be"; "be"].
Proof.
  apply (split_text_chunks_are_not_empty
           (PyStr "to be or not to be") (PyInt 2) (PyFloat (Finite (1#2)))).
  vm_compute. reflexivity.
Defined.

(** X4. Splitting a chunk on whitespace gives back exactly the words of
    its window: joining loses nothing and merges no two words. *)
Theorem split_text_chunks_split_back
  (text : string) (segment_length : pyval) (q : Q) (s : nat) :
  is_positive_int segment_length ->
  (0 <= q <= 1)%Q ->
  skip_of (int_value segment_length) (Finite q) = Ok (Z.of_nat s) ->
  1 <= s ->
  exists chunks,
    split_text (PyStr text) segment_length (PyFloat (Finite q)) = Ok chunks
    /\ map split chunks
       = map (window (window_size segment_length) s (split text))
             (seq 0 (n_windows s (List.length (split text)))).
Proof.
  intros Hs Hq Hskip Hst. eexists.
  split; [now apply (split_text_chunks text segment_length q s)|].
  rewrite map_map. apply map_ext. intros k.
  apply split_join, Forall_window, split_words.
Qed.

Lemma split_text_chunks_split_back_witness :
  exists chunks,
    split_text (PyStr (words_text 20)) (PyInt 10)
               (PyFloat (Finite (3602879701896397 # 36028797018963968))) = Ok chunks
    /\ map split chunks
       = map (window (window_size (PyInt 10)) 9 (split (words_text 20)))
             (seq 0 (n_windows 9 (List.length (split (words_text 20))))).
Proof.
  apply (split_text_chunks_split_back (words_text 20) (PyInt 10)
           (3602879701896397 # 36028797018963968) 9).
  - split; reflexivity.
  - split; vm_compute; discriminate.
  - vm_compute. reflexivity.
  - lia.
Defined.

End SegmenterResults.

(** ** Coverage of the text by the chunks *)

Section SegmenterCoverage.

Local Open Scope nat_scope.
Local Open Scope string_scope.

Lemma in_window (words : list string) m s j :
  1 <= s -> s <= m -> j < List.length words ->
  In (nth j words "") (window m s words (j / s)).
Proof.
  intros Hs Hm Hj. unfold window.
  pose proof (Nat.div_mod_eq j s) as E.
  pose proof (Nat.mod_upper_bound j s ltac:(lia)) as B.
  replace (nth j words "") with (nth (j mod s) (skipn (j / s * s) words) "")
    by (rewrite nth_skipn; f_equal; lia).
  replace (nth (j mod s) (skipn (j / s * s) words) "")
    with (nth (j mod s) (firstn m (skipn (j / s * s) words)) "")
    by (rewrite nth_firstn;
        replace (j mod s <? m)%nat with true by (symmetry; apply Nat.ltb_lt; lia);
        reflexivity).
  apply nth_In. rewrite length_firstn, length_skipn. lia.
Qed.

(** Consecutive windows of size [m] at stride [m] tile the list. *)
Lemma concat_windows (m : nat) : 1 <= m -> forall c (l : list string),
  List.length l <= c * m ->
  List.concat (map (window m m l) (seq 0 c)) = l.
Proof.
  intros Hm. induction c as [|c IH]; intros l Hl.
  - destruct l; [reflexivity | cbn in Hl; lia].
  - cbn [seq map List.concat]. rewrite <- seq_shift, map_map.
    rewrite (map_ext _ (window m m (skipn m l))).
    + rewrite IH by (rewrite length_skipn; lia).
      unfold window. cbn [Nat.mul skipn]. apply firstn_skipn.
    + intros k. unfold window. rewrite skipn_skipn. f_equal. f_equal. lia.
Qed.

Lemma n_windows_covers s n : 1 <= s -> n <= n_windows s n * s.
Proof.
  intros Hs. unfold n_windows.
  pose proof (Nat.div_mod_eq (n + s - 1) s) as E.
  pose proof (Nat.mod_upper_bound (n + s - 1) s ltac:(lia)) as B. nia.
Qed.

(** For a window size below 2^53 the stride is at most the window size. *)
Lemma skip_of_le_window (segment_length : pyval) (q : Q) (s : nat) :
  is_positive_int segment_length ->
  (int_value segment_length < 2 ^ 53)%Z ->
  (0 <= q <= 1)%Q ->
  skip_of (int_value segment_length) (Finite q) = Ok (Z.of_nat s) ->
  s <= window_size segment_length.
Proof.
  intros [_ Hm] Hb Hq Hskip.
  destruct (skip_of_bounds (int_value segment_length) q (conj Hm Hb) Hq) as (z & E & Z0).
  rewrite E in Hskip. injection Hskip as ->. unfold window_size. lia.
Qed.

(** X5. For a window size below 2^53 no word of the text is lost,
    whatever the overlap: when the stride the code computes is at least
    1, each word occurs in at least one chunk. *)
Theorem split_text_covers_every_word
  (text : string) (segment_length : pyval) (q : Q) (s : nat) :
  is_positive_int segment_length ->
  (int_value segment_length < 2 ^ 53)%Z ->
  (0 <= q <= 1)%Q ->
  skip_of (int_value segment_length) (Finite q) = Ok (Z.of_nat s) ->
  1 <= s ->
  exists chunks,
    split_text (PyStr text) segment_length (PyFloat (Finite q)) = Ok chunks
    /\ forall word, In word (split text) ->
         exists chunk, In chunk chunks /\ In word (split chunk).
Proof.
  intros Hs Hb Hq Hskip Hst. eexists.
  split; [now apply (split_text_chunks text segment_length q s)|].
  intros word Hw.
  pose proof (skip_of_le_window segment_length q s Hs Hb Hq Hskip) as B2.
  destruct (In_nth _ _ "" Hw) as (j & Hj & <-).
  set (m := window_size segment_length) in *.
  exists (join " " (window m s (split text) (j / s))). split.
  - apply in_map_iff. exists (j / s). split; [reflexivity|].
    apply in_seq. split; [lia|]. cbn [Nat.add].
    apply n_windows_spec; [assumption|].
    pose proof (Nat.div_mod_eq j s). lia.
  - rewrite split_join by (apply Forall_window, split_words).
    now apply in_window.
Qed.

Lemma split_text_covers_every_word_witness :
  exists chunks,
    split_text (PyStr (words_text 20)) (PyInt 10)
               (PyFloat (Finite (3602879701896397 # 36028797018963968))) = Ok chunks
    /\ forall word, In word (split (words_text 20)) ->
         exists chunk, In chunk chunks /\ In word (split chunk).
Proof.
  apply (split_text_covers_every_word (words_text 20) (PyInt 10)
           (3602879701896397 # 36028797018963968) 9).
  - split; reflexivity.
  - reflexivity.
  - split; vm_compute; discriminate.
  - vm_compute. reflexivity.
  - lia.
Defined.

(** X6. With an overlap of 0.0 and a window size below 2^53 the chunks
    partition the text: the words of the chunks, read one chunk after
    the other, are the words of the text, each exactly once and in
    order. *)
Theorem split_text_without_overlap_partitions (text : string) (segment_length : pyval) :
  is_positive_int segment_length ->
  (int_value segment_length < 2 ^ 53)%Z ->
  exists chunks,
    split_text (PyStr text) segment_length (PyFloat (Finite 0)) = Ok chunks
    /\ List.concat (map split chunks) = split text.
Proof.
  intros Hs Hb.
  assert (Hq : (0 <= 0 <= 1)%Q) by (split; vm_compute; discriminate).
  pose proof (window_size_pos segment_length Hs) as Hm.
  assert (Hskip : skip_of (int_value segment_length) (Finite 0)
                  = Ok (Z.of_nat (window_size segment_length))).
  { destruct Hs as [_ Hp]. unfold window_size. rewrite Z2Nat.id by lia.
    apply skip_of_no_overlap. now split. }
  eexists.
  split; [now apply (split_text_chunks text segment_length 0
                       (window_size segment_length))|].
  rewrite map_map.
  rewrite (map_ext _ (window (window_size segment_length)
                             (window_size segment_length) (split text)))
    by (intros k; apply split_join, Forall_window, split_words).
  apply concat_windows; [assumption|]. now apply n_windows_covers.
Qed.

Lemma split_text_without_overlap_partitions_witness :
  exists chunks,
    split_text (PyStr "to be or not to be") (PyInt 4) (PyFloat (Finite 0)) = Ok chunks
    /\ List.concat (map split chunks) = split "to be or not to be".
Proof.
  apply (split_text_without_overlap_partitions "to be or not to be" (PyInt 4)).
  - split; reflexivity.
  - reflexivity.
Defined.

(** X7. A text without any word (empty, or whitespace only) gives the
    empty list of chunks, provided the stride the code computes is at
    least 1. *)
Theorem split_text_of_blank_text
  (text : string) (segment_length : pyval) (q : Q) (s : nat) :
  all_space text = true ->
  is_positive_int segment_length ->
  (0 <= q <= 1)%Q ->
  skip_of (int_value segment_length) (Finite q) = Ok (Z.of_nat s) ->
  1 <= s ->
  split_text (PyStr text) segment_length (PyFloat (Finite q)) = Ok [].
Proof.
  intros Hb Hs Hq Hskip Hst.
  rewrite (split_text_chunks text segment_length q s Hs Hq Hskip Hst).
  unfold split. rewrite (split_all_space text Hb). cbn [List.length].
  unfold n_windows. rewrite Nat.div_small by lia. reflexivity.
Qed.

Lemma split_text_of_blank_text_witness :
  split_text (PyStr "   ") (PyInt 40) (PyFloat (Finite (1#2))) = Ok [].
Proof.
  apply (split_text_of_blank_text "   " (PyInt 40) (1#2) 20).
  - reflexivity.
  - split; reflexivity.
  - split; vm_compute; discriminate.
  - vm_compute. reflexivity.
  - lia.
Defined.

(** X8. A NaN overlap slips through the range check (both comparisons
    with NaN are false) and, for a window size below 2^53, the call
    fails later, in [int()], with a [ValueError] that does not name the
    parameter. *)
Theorem split_text_nan_overlap (text : string) (segment_length : pyval) :
  is_positive_int segment_length ->
  (int_value segment_length < 2 ^ 53)%Z ->
  split_text (PyStr text) segment_length (PyFloat NaN)
  = Raise (ValueError "cannot convert float NaN to integer").
Proof.
  intros Hs Hb.
  rewrite (split_text_valid_head (PyStr text) segment_length eq_refl Hs).
  cbn [isinstance_float float_value float_lt negb orb]. cbv zeta.
  unfold skip_of. destruct Hs as [_ Hp].
  rewrite float_of_int_exact by lia. reflexivity.
Qed.

Lemma split_text_nan_overlap_witness :
  split_text (PyStr "to be or not to be") (PyInt 40) (PyFloat NaN)
  = Raise (ValueError "cannot convert float NaN to integer").
Proof.
  apply (split_text_nan_overlap "to be or not to be" (PyInt 40)).
  - split; reflexivity.
  - reflexivity.
Defined.

(** X9. The cell's own call, [split_text(doc, segment_length=40)] with
    the default overlap followed by the two filters, never fails on a
    document: it yields the [ceil(words / 20)] chunks of 40 words at
    stride 20, all of them kept by the filters. *)
Theorem doc_paragraphs_total (doc : string) :
  doc_paragraphs doc
  = Ok (map (fun k => join " " (window 40 20 (split doc) k))
            (seq 0 (n_windows 20 (List.length (split doc))))).
Proof.
  unfold doc_paragraphs.
  assert (Hs : is_positive_int (PyInt 40)) by (split; reflexivity).
  assert (Hq : (0 <= 1#2 <= 1)%Q) by (split; vm_compute; discriminate).
  assert (Hskip : skip_of (int_value (PyInt 40)) (Finite (1#2)) = Ok (Z.of_nat 20))
    by (vm_compute; reflexivity).
  rewrite (split_text_chunks doc (PyInt 40) (1#2) 20 Hs Hq Hskip) by lia. cbn [bind].
  change (window_size (PyInt 40)) with 40.
  f_equal. apply remove_empty_id. apply chunks_not_empty; lia.
Qed.

End SegmenterCoverage.

(** ** The filter for the other cutoffs *)

Section LowpassCutoffs.

Local Open Scope Z_scope.

Local Notation zrow := (map (fun _ : complex => c0)).

Lemma zrow_idem (row : list complex) : zrow (zrow row) = zrow row.
Proof. now rewrite map_map. Qed.

Lemma shape1_zero_from {Cell : Type} (z : Cell -> Cell) a (fft : list (list Cell)) :
  shape1 (zero_from z a fft) = shape1 fft.
Proof.
  unfold shape1, zero_from. destruct fft as [|slab fft]; [reflexivity|].
  cbn [map hd]. rewrite length_app, length_map, length_firstn, length_skipn. lia.
Qed.

(** Overwriting from a position at or beyond the end changes nothing. *)
Lemma zero_from_beyond {Cell : Type} (z : Cell -> Cell) a (fft : list (list Cell)) :
  Forall (fun slab => (List.length slab <= a)%nat) fft -> zero_from z a fft = fft.
Proof.
  intros H. unfold zero_from. rewrite <- (map_id fft) at 2.
  apply map_ext_in. intros slab Hs. rewrite Forall_forall in H.
  rewrite firstn_all2, skipn_all2 by (now apply H). apply app_nil_r.
Qed.

(** Overwriting twice is overwriting from the lower position. *)
Lemma overwrite_twice {A : Type} (f : A -> A) (a b : nat) (l : list A) :
  (forall x, f (f x) = f x) ->
  (a <= b)%nat ->
  firstn b (firstn a l ++ map f (skipn a l))
    ++ map f (skipn b (firstn a l ++ map f (skipn a l)))
  = firstn a l ++ map f (skipn a l)
  /\ firstn a (firstn b l ++ map f (skipn b l))
       ++ map f (skipn a (firstn b l ++ map f (skipn b l)))
     = firstn a l ++ map f (skipn a l).
Proof.
  intros Hf Hab. split; apply nth_error_ext; intros k;
    rewrite !nth_error_overwrite;
    destruct (Nat.ltb_spec k a), (Nat.ltb_spec k b); try lia; try reflexivity;
    destruct (nth_error l k); cbn [option_map]; now rewrite ?Hf.
Qed.

Lemma zero_from_twice a b (fft : list (list (list complex))) :
  (a <= b)%nat ->
  zero_from zrow b (zero_from zrow a fft) = zero_from zrow a fft
  /\ zero_from zrow a (zero_from zrow b fft) = zero_from zrow a fft.
Proof.
  intros Hab. unfold zero_from. rewrite !map_map.
  split; apply map_ext; intros slab;
    apply (overwrite_twice zrow a b slab zrow_idem Hab).
Qed.

(** The filter, once its index is computed. *)
Lemma lowpass_filter_at (cutoff : pyfloat) (fft : list (list (list complex))) (a : Z) :
  cutoff_index cutoff (shape1 fft) = Ok a ->
  lowpass_filter cutoff fft = Ok (zero_from zrow (slice_index (shape1 fft) a) fft).
Proof. intros E. unfold lowpass_filter, lowpass_filter_on. now rewrite E. Qed.

Lemma max_float_nonneg : (0 <= max_float)%Q.
Proof. vm_compute. discriminate. Qed.

(** A finite cutoff of at least 1 leaves a rectangular array as it is. *)
Lemma lowpass_filter_identity (c : Q) (fft : list (list (list complex))) (B : nat) :
  Forall (fun slab => List.length slab = B) fft ->
  Z.of_nat B < 2 ^ 53 ->
  (1 <= c)%Q ->
  (c * inject_Z (Z.of_nat B) <= max_float)%Q ->
  lowpass_filter (Finite c) fft = Ok fft.
Proof.
  intros HB Hb Hc Hmax.
  destruct (shape1_cases fft B HB) as [->|Hs].
  - destruct (cutoff_index_nonneg c 0) as (a & E & _);
      [lra | reflexivity
       | change (inject_Z (Z.of_nat 0)) with 0%Q; pose proof max_float_nonneg; lra |].
    now rewrite (lowpass_filter_at (Finite c) [] a E).
  - destruct (cutoff_index_ge c B Hc Hb Hmax) as (a & E & A).
    rewrite <- Hs in E. rewrite (lowpass_filter_at (Finite c) fft a E). f_equal.
    apply zero_from_beyond. rewrite Hs. unfold slice_index.
    replace (a <? 0) with false by (symmetry; apply Z.ltb_ge; lia).
    eapply Forall_impl; [|exact HB]. cbn beta. intros s0 Hs0. lia.
Qed.

(** X10. Filter monotonicity: with a finite cutoff of 1.0 or more, as
    long as its product with the number of bins is in the range of the
    floats, the filter zeroes no bin and returns an array equal to its
    argument. *)
Theorem lowpass_filter_cutoff_one_keeps_everything
  (cutoff : Q) (fft : list (list (list complex))) (bin_count : nat) :
  Forall (fun slab => List.length slab = bin_count) fft ->
  Z.of_nat bin_count < 2 ^ 53 ->
  (1 <= cutoff)%Q ->
  (cutoff * inject_Z (Z.of_nat bin_count) <= max_float)%Q ->
  lowpass_filter (Finite cutoff) fft = Ok fft.
Proof. apply lowpass_filter_identity. Qed.

Lemma lowpass_filter_cutoff_one_keeps_everything_witness :
  lowpass_filter (Finite 1) (get_fft [qs [1; 0]; qs [0; 1]; qs [1; 1]])
  = Ok (get_fft [qs [1; 0]; qs [0; 1]; qs [1; 1]]).
Proof.
  apply (lowpass_filter_cutoff_one_keeps_everything
           1 (get_fft [qs [1; 0]; qs [0; 1]; qs [1; 1]]) 17).
  - repeat constructor.
  - reflexivity.
  - vm_compute. discriminate.
  - vm_compute. discriminate.
Defined.

(** X11. Filtering twice is filtering once with the smaller cutoff, in
    either order, for cutoffs that are not negative and whose products
    with the number of bins are in the range of the floats; in
    particular the filter is idempotent. *)
Theorem lowpass_filter_smaller_cutoff_wins
  (c1 c2 : Q) (fft : list (list (list complex))) :
  (0 <= c1)%Q -> (c1 <= c2)%Q ->
  Z.of_nat (shape1 fft) < 2 ^ 53 ->
  (c2 * inject_Z (Z.of_nat (shape1 fft)) <= max_float)%Q ->
  exists out1 out2,
    lowpass_filter (Finite c1) fft = Ok out1
    /\ lowpass_filter (Finite c2) fft = Ok out2
    /\ lowpass_filter (Finite c2) out1 = Ok out1
    /\ lowpass_filter (Finite c1) out2 = Ok out1
    /\ lowpass_filter (Finite c1) out1 = Ok out1.
Proof.
  intros H1 H12 Hb Hmax.
  destruct (cutoff_index_mono c1 c2 (shape1 fft) H1 H12 Hb Hmax)
    as (a1 & a2 & E1 & E2 & A0 & A12).
  set (n1 := slice_index (shape1 fft) a1). set (n2 := slice_index (shape1 fft) a2).
  exists (zero_from zrow n1 fft), (zero_from zrow n2 fft).
  split; [now apply lowpass_filter_at|].
  split; [now apply lowpass_filter_at|].
  assert (A : (n1 <= n2)%nat).
  { unfold n1, n2, slice_index.
    replace (a1 <? 0) with false by (symmetry; apply Z.ltb_ge; lia).
    replace (a2 <? 0) with false by (symmetry; apply Z.ltb_ge; lia). lia. }
  destruct (zero_from_twice n1 n2 fft A) as [T1 T2].
  destruct (zero_from_twice n1 n1 fft (Nat.le_refl n1)) as [T3 _].
  rewrite !(lowpass_filter_at (Finite c2) (zero_from zrow n1 fft) a2)
    by (now rewrite shape1_zero_from).
  rewrite !(lowpass_filter_at (Finite c1) (zero_from zrow n2 fft) a1)
    by (now rewrite shape1_zero_from).
  rewrite !(lowpass_filter_at (Finite c1) (zero_from zrow n1 fft) a1)
    by (now rewrite shape1_zero_from).
  rewrite !shape1_zero_from. fold n1 n2.
  now rewrite T1, T2, T3.
Qed.

Lemma lowpass_filter_smaller_cutoff_wins_witness :
  exists out1 out2,
    lowpass_filter (Finite (1#4)) (get_fft [qs [1; 2]]) = Ok out1
    /\ lowpass_filter (Finite (1#2)) (get_fft [qs [1; 2]]) = Ok out2
    /\ lowpass_filter (Finite (1#2)) out1 = Ok out1
    /\ lowpass_filter (Finite (1#4)) out2 = Ok out1
    /\ lowpass_filter (Finite (1#4)) out1 = Ok out1.
Proof.
  apply (lowpass_filter_smaller_cutoff_wins (1#4) (1#2) (get_fft [qs [1; 2]])).
  - vm_compute. discriminate.
  - vm_compute. discriminate.
  - reflexivity.
  - vm_compute. discriminate.
Defined.

Lemma shape3_zero_from a (fft : list (list (list complex))) :
  shape3 (zero_from zrow a fft) = shape3 fft.
Proof.
  unfold shape3, zero_from. rewrite map_map. apply map_ext. intros slab.
  rewrite map_app, map_map.
  rewrite (map_ext (fun row => List.length (zrow row)) (@List.length complex))
    by (intros row; apply length_map).
  now rewrite <- map_app, firstn_skipn.
Qed.

(** X12. Whenever the filter returns, for whatever cutoff, the array it
    returns has the shape of its argument, axis by axis. *)
Theorem lowpass_filter_preserves_shape
  (cutoff : pyfloat) (fft out : list (list (list complex))) :
  lowpass_filter cutoff fft = Ok out -> shape3 out = shape3 fft.
Proof.
  unfold lowpass_filter, lowpass_filter_on. intros H.
  destruct (cutoff_index _ _) as [a|e]; [|discriminate H].
  cbn [bind] in H. injection H as <-. apply shape3_zero_from.
Qed.

Lemma lowpass_filter_preserves_shape_witness :
  shape3 (zeros_like (get_fft [qs [1; 2]])) = shape3 (get_fft [qs [1; 2]]).
Proof.
  apply (lowpass_filter_preserves_shape (Finite 0)).
  apply lowpass_filter_zero_cutoff.
Defined.

(** X13. A cutoff that is not finite is not filtered on: NaN raises
    [ValueError] and an infinity raises [OverflowError], both from
    [int()], for every array with at least one bin. *)
Theorem lowpass_filter_rejects_non_finite_cutoff (fft : list (list (list complex))) :
  shape1 fft <> 0%nat ->
  lowpass_filter NaN fft = Raise (ValueError "cannot convert float NaN to integer")
  /\ lowpass_filter PosInf fft
     = Raise (OverflowError "cannot convert float infinity to integer")
  /\ lowpass_filter NegInf fft
     = Raise (OverflowError "cannot convert float infinity to integer").
Proof.
  intros H. unfold lowpass_filter, lowpass_filter_on, cutoff_index.
  destruct (float_of_size_bounds (shape1 fft)) as (b & -> & _ & B1).
  specialize (B1 H). cbn [float_mul].
  assert (S1 : Qsign b = 1).
  { unfold Qsign. apply Z.sgn_pos. unfold Qle in B1. cbn [Qnum Qden] in B1. lia. }
  rewrite S1. repeat split; reflexivity.
Qed.

Lemma lowpass_filter_rejects_non_finite_cutoff_witness :
  lowpass_filter NaN (get_fft [qs [1; 2]])
  = Raise (ValueError "cannot convert float NaN to integer")
  /\ lowpass_filter PosInf (get_fft [qs [1; 2]])
     = Raise (OverflowError "cannot convert float infinity to integer")
  /\ lowpass_filter NegInf (get_fft [qs [1; 2]])
     = Raise (OverflowError "cannot convert float infinity to integer").
Proof.
  apply (lowpass_filter_rejects_non_finite_cutoff (get_fft [qs [1; 2]])).
  vm_compute. discriminate.
Defined.

(** X14. A negative cutoff is not rejected either, as long as its
    product with the number of bins is in the range of the floats: the
    truncated product [a = int(cutoff * bin_count)] is not positive and
    is read as a Python index from the end, so the bins from
    [bin_count + a] on are zeroed when [a < 0], and every bin when
    [a = 0]. *)
Theorem lowpass_filter_negative_cutoff
  (fft : list (list (list complex))) (bin_count : nat) (cutoff : Q) :
  Forall (fun slab => List.length slab = bin_count) fft ->
  Z.of_nat bin_count < 2 ^ 53 ->
  (cutoff < 0)%Q ->
  (- max_float <= cutoff * inject_Z (Z.of_nat bin_count))%Q ->
  exists a out,
    cutoff_index (Finite cutoff) bin_count = Ok a
    /\ a <= 0
    /\ lowpass_filter (Finite cutoff) fft = Ok out
    /\ forall n k t,
         entry out n k t
         = if (a <? 0) && (Z.of_nat k <? Z.of_nat bin_count + a)
           then entry fft n k t
           else option_map (fun _ => c0) (entry fft n k t).
Proof.
  intros HB Hb Hc Hmax.
  assert (Hc' : (cutoff <= 0)%Q) by lra.
  destruct (cutoff_index_nonpos cutoff bin_count Hc' Hb Hmax) as (a & Ea & A).
  exists a. destruct (shape1_cases fft bin_count HB) as [->|Hs].
  - destruct (cutoff_index_nonpos cutoff 0) as (a0 & E0 & _);
      [assumption | reflexivity
       | change (inject_Z (Z.of_nat 0)) with 0%Q; pose proof max_float_nonneg; lra |].
    eexists. split; [exact Ea|]. split; [exact A|].
    split; [exact (lowpass_filter_at (Finite cutoff) [] a0 E0)|].
    intros n k t. unfold zero_from, entry. cbn [map].
    destruct n; cbn [nth_error]; now destruct (_ && _).
  - eexists. split; [exact Ea|]. split; [exact A|].
    rewrite <- Hs in Ea.
    split; [exact (lowpass_filter_at (Finite cutoff) fft a Ea)|].
    intros n k t. rewrite entry_zero_from.
    destruct (entry fft n k t) as [x|] eqn:E; cbn [option_map].
    2:{ now destruct (_ <? _)%nat, (_ && _). }
    pose proof (entry_bin_bound fft bin_count n k t x HB E) as Hk.
    rewrite Hs. unfold slice_index.
    destruct (Z.ltb_spec a 0) as [Hlt|Hge]; cbn [andb].
    + destruct (Z.ltb_spec (Z.of_nat k) (Z.of_nat bin_count + a));
        destruct (Nat.ltb_spec k (Z.to_nat (Z.max 0 (a + Z.of_nat bin_count))));
        try reflexivity; lia.
    + replace (Z.to_nat a) with 0%nat by lia. reflexivity.
Qed.

Lemma lowpass_filter_negative_cutoff_witness :
  exists a out,
    cutoff_index (Finite (- (4238682002231055 # 9007199254740992))) 17 = Ok a
    /\ a <= 0
    /\ lowpass_filter (Finite (- (4238682002231055 # 9007199254740992)))
                      (get_fft [qs [1; 2]]) = Ok out
    /\ forall n k t,
         entry out n k t
         = if (a <? 0) && (Z.of_nat k <? Z.of_nat 17 + a)
           then entry (get_fft [qs [1; 2]]) n k t
           else option_map (fun _ => c0) (entry (get_fft [qs [1; 2]]) n k t).
Proof.
  apply (lowpass_filter_negative_cutoff (get_fft [qs [1; 2]]) 17
           (- (4238682002231055 # 9007199254740992))).
  - repeat constructor.
  - reflexivity.
  - vm_compute. reflexivity.
  - vm_compute. discriminate.
Defined.

(** The index of the negated cutoff nearest to 8/17 is -8, the negated
    rounded product, where the exact product truncates to -7. *)
Example cutoff_index_negative :
  cutoff_index (Finite (- (4238682002231055 # 9007199254740992))) 17 = Ok (-8)
  /\ Qceiling (- (4238682002231055 # 9007199254740992) * 17) = -7.
Proof. split; vm_compute; reflexivity. Qed.

End LowpassCutoffs.

(** ** The pipeline as a whole *)

Section Pipeline.

Import CycFacts.
Local Open Scope nat_scope.

Lemma vadd_nil_r a : vadd a [] = a.
Proof. now destruct a. Qed.

Lemma vadd_assoc : forall a b c, vadd a (vadd b c) = vadd (vadd a b) c.
Proof.
  induction a as [|x a IH]; intros [|y b] [|z c]; cbn [vadd]; try reflexivity.
  now rewrite IH, cadd_assoc.
Qed.

Lemma length_vadd : forall a b,
  List.length (vadd a b) = Nat.max (List.length a) (List.length b).
Proof.
  induction a as [|x a IH]; intros [|y b]; cbn [vadd List.length]; try reflexivity.
  now rewrite IH.
Qed.

Lemma fold_left_vadd : forall l a,
  fold_left vadd l a = vadd a (fold_right vadd [] l).
Proof.
  induction l as [|x l IH]; intros a; cbn [fold_left fold_right].
  - now rewrite vadd_nil_r.
  - now rewrite IH, vadd_assoc.
Qed.

Lemma vsum_fold_right rows : vsum rows = fold_right vadd [] rows.
Proof. destruct rows as [|r rest]; [reflexivity | apply fold_left_vadd]. Qed.

Lemma get_fft_rect X : Forall (fun slab => List.length slab = n_bins) (get_fft X).
Proof.
  apply Forall_forall. intros slab H. apply in_map_iff in H as (v & <- & _).
  apply length_stft1.
Qed.

Lemma length_istft1 S : List.length (istft1 S) = List.length (hd [] S) - 1.
Proof. unfold istft1. cbv zeta. now rewrite length_map, length_seq. Qed.

Lemma length_filtered_chunk a v : List.length (filtered_chunk a v) = List.length v.
Proof.
  unfold filtered_chunk. rewrite length_istft1.
  assert (H : List.length (hd [] (firstn a (stft1 v)
                                  ++ map (map (fun _ => c0)) (skipn a (stft1 v))))
              = List.length (hd [] (stft1 v))).
  { destruct (stft1 v) as [|r S]; [now destruct a|].
    destruct a; cbn [firstn skipn app map hd]; [apply length_map | reflexivity]. }
  rewrite H, hd_stft1. lia.
Qed.

Lemma length_vsum (D : nat) rows :
  rows <> [] -> Forall (fun r => List.length r = D) rows -> List.length (vsum rows) = D.
Proof.
  intros Hne H. rewrite vsum_fold_right.
  destruct rows as [|r rows]; [contradiction|]. clear Hne.
  revert r H. induction rows as [|r' rows IH]; intros r H; cbn [fold_right].
  - rewrite vadd_nil_r. now inversion H.
  - rewrite length_vadd. inversion H as [|? ? Hr Hrest]; subst.
    cbn [fold_right] in IH. rewrite (IH r' Hrest). lia.
Qed.

Lemma length_mean D rows :
  rows <> [] -> Forall (fun r => List.length r = D) rows ->
  exists v, mean_axis0 rows = Some v /\ List.length v = D.
Proof.
  intros Hne H. unfold mean_axis0. destruct rows as [|r rows]; [contradiction|].
  eexists. split; [reflexivity|]. rewrite length_map. now apply length_vsum.
Qed.

(** The index of a cutoff that is not negative can be computed when the
    product with the 17 bins is in the range of the floats. *)
Lemma cutoff_index_bins (c : Q) :
  (0 <= c)%Q -> (c * inject_Z (Z.of_nat n_bins) <= max_float)%Q ->
  exists a, cutoff_index (Finite c) n_bins = Ok a.
Proof.
  intros Hc Hmax.
  destruct (cutoff_index_nonneg c n_bins Hc n_bins_small Hmax) as (a & E & _).
  now exists a.
Qed.

(** X16. With a finite cutoff of 1.0 or more, whose product with the 17
    bins is in the range of the floats, the filtered pipeline returns
    what the unfiltered pipeline returns. *)
Theorem aggregate_cutoff_one_is_unfiltered (cutoff : Q) (X : list (list Qc)) :
  (1 <= cutoff)%Q ->
  (cutoff * inject_Z (Z.of_nat n_bins) <= max_float)%Q ->
  aggregate (Finite cutoff) true X = aggregate (Finite cutoff) false X.
Proof.
  intros Hc Hmax. unfold aggregate. cbv zeta.
  now rewrite (lowpass_filter_identity cutoff (get_fft X) n_bins
                 (get_fft_rect X) n_bins_small Hc Hmax).
Qed.

Lemma aggregate_cutoff_one_is_unfiltered_witness :
  aggregate (Finite 1) true [qs [1; 0]%Z; qs [0; 1]%Z; qs [1; 1]%Z]
  = aggregate (Finite 1) false [qs [1; 0]%Z; qs [0; 1]%Z; qs [1; 1]%Z].
Proof.
  apply (aggregate_cutoff_one_is_unfiltered 1 [qs [1; 0]%Z; qs [0; 1]%Z; qs [1; 1]%Z]).
  - vm_compute. discriminate.
  - vm_compute. discriminate.
Defined.

(** X18. For a matrix of [N >= 1] chunks of [D] dimensions and a finite
    cutoff that is not negative, whose product with the 17 bins is in
    the range of the floats, the pipeline returns a vector of [D]
    entries, with or without the filter. *)
Theorem aggregate_returns_one_entry_per_dimension
  (cutoff : Q) (apply_lowpass : bool) (X : list (list Qc)) (D : nat) :
  X <> [] ->
  Forall (fun chunk => List.length chunk = D) X ->
  (0 <= cutoff)%Q ->
  (cutoff * inject_Z (Z.of_nat n_bins) <= max_float)%Q ->
  exists v, aggregate (Finite cutoff) apply_lowpass X = Ok (Some v)
            /\ List.length v = D.
Proof.
  intros HX HD Hc Hmax.
  assert (Hrows : forall (f : list Qc -> list complex),
             (forall v, List.length (f v) = List.length v) ->
             exists v, mean_axis0 (map f X) = Some v /\ List.length v = D).
  { intros f Hf. apply length_mean.
    - destruct X; [contradiction | discriminate].
    - apply Forall_forall. intros r Hr. apply in_map_iff in Hr as (v & <- & Hv).
      rewrite Hf. rewrite Forall_forall in HD. now apply HD. }
  destruct apply_lowpass.
  - rewrite (aggregate_filtered cutoff X HX (cutoff_index_bins cutoff Hc Hmax)).
    destruct (Hrows (filtered_chunk (cutoff_bin cutoff)) (length_filtered_chunk _))
      as (v & -> & Hv).
    now exists v.
  - unfold aggregate. cbn [bind]. rewrite fft_to_embedding_get_fft.
    destruct (Hrows (map of_Qc) (fun v => length_map of_Qc v)) as (v & -> & Hv).
    now exists v.
Qed.

Lemma aggregate_returns_one_entry_per_dimension_witness :
  exists v, aggregate (Finite (1#2)) true [qs [1; 0]%Z; qs [0; 1]%Z; qs [1; 1]%Z] = Ok (Some v)
            /\ List.length v = 2.
Proof.
  apply (aggregate_returns_one_entry_per_dimension
           (1#2) true [qs [1; 0]%Z; qs [0; 1]%Z; qs [1; 1]%Z] 2).
  - discriminate.
  - repeat constructor.
  - vm_compute. discriminate.
  - vm_compute. discriminate.
Defined.

(** X19. With a cutoff of 0.0 the filtered pipeline returns the zero
    vector, whatever the embeddings. *)
Theorem aggregate_cutoff_zero_is_zero (X : list (list Qc)) (D : nat) :
  X <> [] ->
  Forall (fun chunk => List.length chunk = D) X ->
  aggregate (Finite 0) true X = Ok (Some (repeat c0 D)).
Proof.
  intros HX HD. unfold aggregate. cbv zeta.
  rewrite lowpass_filter_zero_cutoff. cbn [bind].
  rewrite fft_to_embedding_zero. f_equal.
  assert (E : map (map (fun _ : Qc => c0)) X = repeat (repeat c0 D) (List.length X)).
  { rewrite <- map_const. apply map_ext_in. intros r Hr.
    rewrite map_const. rewrite Forall_forall in HD. now rewrite (HD r Hr). }
  rewrite E. destruct X as [|v X]; [contradiction|].
  cbn [List.length]. apply mean_of_copies.
Qed.

Lemma aggregate_cutoff_zero_is_zero_witness :
  aggregate (Finite 0) true [qs [1; 0]%Z; qs [0; 1]%Z; qs [1; 1]%Z]
  = Ok (Some (repeat c0 2)).
Proof.
  apply (aggregate_cutoff_zero_is_zero [qs [1; 0]%Z; qs [0; 1]%Z; qs [1; 1]%Z] 2).
  - discriminate.
  - repeat constructor.
Defined.

(** X20. For a cutoff that is not negative, whose product with the 17
    bins is in the range of the floats, the aggregate of a document is
    the mean of the aggregates of its chunks taken one at a time: the
    filter never combines values of different chunks. *)
Theorem aggregate_is_mean_of_chunk_aggregates (cutoff : Q) (X : list (list Qc)) :
  (0 <= cutoff)%Q ->
  (cutoff * inject_Z (Z.of_nat n_bins) <= max_float)%Q ->
  X <> [] ->
  exists vs,
    Forall2 (fun chunk v => aggregate (Finite cutoff) true [chunk] = Ok (Some v)) X vs
    /\ aggregate (Finite cutoff) true X = Ok (mean_axis0 vs).
Proof.
  intros Hc Hmax HX.
  pose proof (cutoff_index_bins cutoff Hc Hmax) as Ha.
  exists (map (filtered_chunk (cutoff_bin cutoff)) X). split.
  - clear HX. induction X as [|v X IH]; constructor; [|exact IH].
    rewrite (aggregate_filtered cutoff [v]) by (discriminate || assumption).
    cbn [map]. f_equal. apply (mean_of_copies _ 0).
  - now apply aggregate_filtered.
Qed.

Lemma aggregate_is_mean_of_chunk_aggregates_witness :
  exists vs,
    Forall2 (fun chunk v => aggregate (Finite (1#2)) true [chunk] = Ok (Some v))
            [qs [1; 0]%Z; qs [0; 1]%Z] vs
    /\ aggregate (Finite (1#2)) true [qs [1; 0]%Z; qs [0; 1]%Z] = Ok (mean_axis0 vs).
Proof.
  apply (aggregate_is_mean_of_chunk_aggregates (1#2) [qs [1; 0]%Z; qs [0; 1]%Z]).
  - vm_compute. discriminate.
  - vm_compute. discriminate.
  - discriminate.
Defined.

End Pipeline.
